(** * ThreeCardImageFader: the rotation engine, its selection helpers,
      the configuration normalisation and the interval lifecycle

    A shallow embedding of [src/components/ThreeCardImageFader.jsx].
    Image values are the JavaScript values the component stores in a card
    layer ([null], [undefined], a string); arrays are lists read with
    stdpp's lookup; [new Set(...)] is a [gset]; [Math.random()] is read
    from an explicit random source, and the one unbounded loop of the file
    ([pickRandomExcluding]) runs on fuel. *)

From Stdlib Require Import QArith Qround.
From stdpp Require Import base option list strings gmap sets.

Close Scope Q_scope.
#[local] Set Warnings "-register-all".
Open Scope string_scope.
Open Scope nat_scope.

(** ** JavaScript values held by a card layer *)

Inductive value : Type :=
  | Null
  | Undefined
  | Str (s : string).

#[global] Instance value_eq_dec : EqDecision value.
Proof. solve_decision. Defined.

Definition value_code (v : value) : option (option string) :=
  match v with
  | Null => None
  | Undefined => Some None
  | Str s => Some (Some s)
  end.

Definition value_decode (c : option (option string)) : value :=
  match c with
  | None => Null
  | Some None => Undefined
  | Some (Some s) => Str s
  end.

#[global] Instance value_countable : Countable value.
Proof.
  apply (inj_countable' value_code value_decode).
  by intros [].
Defined.

(** [Boolean(v)], also the test behind [!v] and [v && ...]: [null],
    [undefined] and the empty string are falsy. *)
Definition truthy (v : value) : bool :=
  match v with
  | Null | Undefined => false
  | Str EmptyString => false
  | Str (String _ _) => true
  end.

(** [list[idx]]: reading past the end of an array gives [undefined]. *)
Definition at_index (list : list value) (idx : nat) : value :=
  default Undefined (list !! idx).

(** ** The random source *)

(** One result of [Math.random()]: a number [r] with [0 <= r < 1]. *)
Record unit_draw : Type := UnitDraw {
  draw_value : Q;
  draw_in_range :
    Qle_bool 0 draw_value && negb (Qle_bool 1 draw_value) = true
}.

(** [Math.floor(r * n)], with the product taken exactly. The code rounds
    the product to the nearest double before the floor, which can move the
    index by one at a boundary between two indices but not out of the
    array; the statements below rely on the index being within the array,
    and where one names a draw (0, 1/2, 9/10, at least 1/3) its index is
    the same in both. *)
Definition Math_floor_mul (r : unit_draw) (n : nat) : nat :=
  Z.to_nat (Qfloor (draw_value r * inject_Z (Z.of_nat n))).

(** The successive results of [Math.random()], the next one first. *)
Definition random_source : Type := nat → unit_draw.

(** Computations that draw random numbers; [None] is a loop that used up
    its fuel. *)
Definition Rand (A : Type) : Type :=
  random_source → option (A * random_source).

#[global] Instance Rand_ret : MRet Rand := λ A x g, Some (x, g).

#[global] Instance Rand_bind : MBind Rand := λ A B f m g,
  match m g with
  | Some (x, g') => f x g'
  | None => None
  end.

Definition out_of_fuel {A : Type} : Rand A := λ _, None.

Definition Math_random : Rand unit_draw :=
  λ g, Some (g 0, λ n, g (S n)).

(** ** Selection helpers (lines 29-57) *)

(** The [while (candidate === exclude)] loop of [pickRandomExcluding];
    one unit of fuel per iteration. *)
Fixpoint pickRandomExcluding_loop
    (fuel : nat) (list : list value) (exclude candidate : value) : Rand value :=
  if decide (candidate = exclude) then
    match fuel with
    | 0 => out_of_fuel
    | S fuel' =>
        r ← Math_random;
        let idx := Math_floor_mul r (length list) in
        pickRandomExcluding_loop fuel' list exclude (at_index list idx)
    end
  else mret candidate.

Definition pickRandomExcluding
    (fuel : nat) (list : list value) (exclude : value) : Rand value :=
  if decide (length list = 0) then mret Null
  else if decide (length list = 1) then mret (at_index list 0)
  else
    let candidate := exclude in
    pickRandomExcluding_loop fuel list exclude candidate.

Definition pickRandomNotIn
    (list : list value) (excludeSet : gset value) : Rand value :=
  if decide (length list = 0) then mret Null
  else
    let candidates := filter (λ x, x ∉ excludeSet) list in
    if decide (length candidates = 0) then mret Null
    else
      r ← Math_random;
      let idx := Math_floor_mul r (length candidates) in
      mret (at_index candidates idx).

(** The selection of the next image, lines 296-303 of the interval
    callback: an image visible nowhere, else one different from the target
    card's, else the current one. *)
Definition selectNext
    (fuel : nat) (images : list value) (visibleSet : gset value)
    (currentVisible : value) : Rand value :=
  newImg ← pickRandomNotIn images visibleSet;
  newImg ← (if truthy newImg then mret newImg
            else pickRandomExcluding fuel images currentVisible);
  mret (if truthy newImg then newImg else currentVisible).

(** ** Cards and the interval callback (lines 201-205, 259-267, 278-315) *)

Record card : Type := Card {
  a : value;
  b : value;
  showA : bool
}.

#[global] Instance card_eq_dec : EqDecision card.
Proof. solve_decision. Defined.

(** [c.showA ? c.a : c.b] *)
Definition visibleImage (c : card) : value :=
  if showA c then a c else b c.

(** [prev.map((c) => (c.showA ? c.a : c.b)).filter(Boolean)] *)
Definition visibleList (cards : list card) : list value :=
  filter (λ v, truthy v = true) (visibleImage <$> cards).

(** The hidden layer receives the image and the card flips to it. *)
Definition updatedCard (currentCard : card) (newImg : value) : card :=
  if showA currentCard
  then {| a := a currentCard; b := newImg; showA := false |}
  else {| a := newImg; b := b currentCard; showA := true |}.

(** The updater passed to [setCards] by the interval callback. *)
Definition tick (fuel : nat) (images : list value) (prev : list card)
    : Rand (list card) :=
  r ← Math_random;
  let target := Math_floor_mul r 3 in
  let visibleSet : gset value := list_to_set (visibleList prev) in
  let next := prev in
  match prev !! target with
  | None => mret prev
  | Some currentCard =>
      let currentVisible := visibleImage currentCard in
      newImg ← selectNext fuel images visibleSet currentVisible;
      let updated := updatedCard currentCard newImg in
      mret (<[target := updated]> next)
  end.

(** The initial state of [cards]. *)
Definition initialCards : list card :=
  [ {| a := Null; b := Null; showA := true |};
    {| a := Null; b := Null; showA := true |};
    {| a := Null; b := Null; showA := true |} ].

(** [prev.map(() => { ... })] of the initialising effect: one draw a card. *)
Fixpoint initializeCards (images : list value) (prev : list card)
    : Rand (list card) :=
  match prev with
  | [] => mret []
  | _ :: prev' =>
      r ← Math_random;
      let initial := at_index images (Math_floor_mul r (length images)) in
      rest ← initializeCards images prev';
      mret ({| a := initial; b := initial; showA := true |} :: rest)
  end.

(** The initialising effect (lines 259-267). *)
Definition initialize (images : list value) (cards : list card)
    : Rand (list card) :=
  if decide (length images = 0) then mret cards
  else initializeCards images cards.

(** ** Decoded configuration values and JavaScript numbers *)

(** A JavaScript number: a finite value (as a rational), an infinity or
    [NaN]. *)
Inductive number : Type :=
  | NaN
  | PosInfinity
  | NegInfinity
  | Finite (q : Q).

(** What [r.json()] resolves to, together with [undefined], the result of
    reading a property that is not there. *)
Inductive json : Type :=
  | JNull
  | JUndefined
  | JBool (b : bool)
  | JNum (n : number)
  | JStr (s : string)
  | JArr (items : list json)
  | JObj (props : list (string * json)).

(** The two conversions of the language that the component reaches through
    [Number(...)]: the numeric value of a string and the decimal text of a
    number. *)
Class Coercions : Type := {
  StringToNumber : string → number;
  NumberToString : number → string
}.

Definition Number_isFinite (n : number) : bool :=
  match n with
  | Finite _ => true
  | NaN | PosInfinity | NegInfinity => false
  end.

(** [n > 0] *)
Definition gt0 (n : number) : bool :=
  match n with
  | Finite q => negb (Qle_bool q 0)
  | PosInfinity => true
  | NaN | NegInfinity => false
  end.

(** [Object.is] on numbers, the comparison behind a state setter's
    bail-out. *)
Definition Object_is (x y : number) : bool :=
  match x, y with
  | NaN, NaN | PosInfinity, PosInfinity | NegInfinity, NegInfinity => true
  | Finite p, Finite q => Qeq_bool p q
  | _, _ => false
  end.

Definition Array_isArray (v : json) : bool :=
  match v with
  | JArr _ => true
  | _ => false
  end.

Definition typeof (v : json) : string :=
  match v with
  | JUndefined => "undefined"
  | JBool _ => "boolean"
  | JNum _ => "number"
  | JStr _ => "string"
  | JNull | JArr _ | JObj _ => "object"
  end.

(** The truth value of [data] in [data && ...]. *)
Definition ToBoolean (v : json) : bool :=
  match v with
  | JNull | JUndefined => false
  | JBool b => b
  | JNum NaN => false
  | JNum (Finite q) => negb (Qeq_bool q 0)
  | JNum _ => true
  | JStr EmptyString => false
  | JStr (String _ _) => true
  | JArr _ | JObj _ => true
  end.

Fixpoint lookupProp (props : list (string * json)) (key : string) : json :=
  match props with
  | [] => JUndefined
  | (k, v) :: rest => if String.eqb k key then v else lookupProp rest key
  end.

(** [data.key] on a decoded object; the keys the component reads are not
    inherited from [Object.prototype], so a missing key is [undefined]. *)
Definition getProp (data : json) (key : string) : json :=
  match data with
  | JObj props => lookupProp props key
  | _ => JUndefined
  end.

(** [x ?? y] *)
Definition nullish (x y : json) : json :=
  match x with
  | JNull | JUndefined => y
  | _ => x
  end.

(** [Object.hasOwn(obj, key)] on the properties of a decoded object. *)
Definition hasOwn (props : list (string * json)) (key : string) : bool :=
  existsb (λ kv, String.eqb (fst kv) key) props.

(** The text of a value, as [Number(...)] obtains it from an array or an
    object; [None] is a [TypeError]. A decoded object with an own
    [toString] key has no conversion to a primitive value: the key holds
    decoded data, never a function, and the inherited [valueOf] returns
    the object itself. An array is joined with commas, [null] and
    [undefined] entries giving the empty text, and fails when the
    conversion of an entry does. *)
Fixpoint ToString `{Coercions} (v : json) : option string :=
  match v with
  | JNull => Some "null"
  | JUndefined => Some "undefined"
  | JBool true => Some "true"
  | JBool false => Some "false"
  | JNum n => Some (NumberToString n)
  | JStr s => Some s
  | JArr items =>
      texts ← foldr (λ e rest,
                 text ← match e with
                        | JNull | JUndefined => Some EmptyString
                        | _ => ToString e
                        end;
                 texts ← rest;
                 Some (text :: texts)) (Some []) items;
      Some (String.concat "," texts)
  | JObj props =>
      if hasOwn props "toString" then None else Some "[object Object]"
  end.

(** [Number(v)]; [None] is a [TypeError]. *)
Definition Number `{Coercions} (v : json) : option number :=
  match v with
  | JUndefined => Some NaN
  | JNull => Some (Finite 0)
  | JBool true => Some (Finite 1)
  | JBool false => Some (Finite 0)
  | JNum n => Some n
  | JStr s => Some (StringToNumber s)
  | JArr _ | JObj _ => StringToNumber <$> ToString v
  end.

(** ** The configuration loader (lines 215-253) *)

Module Loader.

(** The three values the loader stores with [setImages],
    [setIntervalMs] and [setFadeMs]. *)
Record loaded : Type := Loaded {
  images : json;
  intervalMs : number;
  fadeMs : number
}.

(** The handler of the decoded value (lines 219-243); [None] is a
    [TypeError] raised by [Number(...)] at line 231 or 232, before any of
    the three setters has run. *)
Definition onData `{Coercions}
    (defaultIntervalMs defaultFadeMs : number) (data : json)
    : option loaded :=
  if Array_isArray data then
    Some {| images := data;
            intervalMs := defaultIntervalMs;
            fadeMs := defaultFadeMs |}
  else if ToBoolean data && String.eqb (typeof data) "object" then
    let imgs :=
      if Array_isArray (getProp data "images")
      then getProp data "images" else JArr [] in
    interval ←
      Number (nullish (getProp data "INTERVAL_MS") (getProp data "intervalMs"));
    fade ←
      Number (nullish (getProp data "FADE_MS") (getProp data "fadeMs"));
    Some {| images := imgs;
            intervalMs :=
              if Number_isFinite interval && gt0 interval
              then interval else defaultIntervalMs;
            fadeMs :=
              if Number_isFinite fade && gt0 fade
              then fade else defaultFadeMs |}
  else
    Some {| images := JArr [];
            intervalMs := defaultIntervalMs;
            fadeMs := defaultFadeMs |}.

(** The [catch] handler (lines 244-249). *)
Definition onError (defaultIntervalMs defaultFadeMs : number) : loaded :=
  {| images := JArr [];
     intervalMs := defaultIntervalMs;
     fadeMs := defaultFadeMs |}.

(** The loader on the outcome of [fetch(...).then(r => r.json())]:
    a decoded value, or a rejection. The [catch] handler receives the
    rejection of the fetch or of the decoding and also an exception raised
    by the handler of the decoded value. *)
Definition load `{Coercions}
    (defaultIntervalMs defaultFadeMs : number) (outcome : option json)
    : loaded :=
  match outcome with
  | Some data =>
      match onData defaultIntervalMs defaultFadeMs data with
      | Some result => result
      | None => onError defaultIntervalMs defaultFadeMs
      end
  | None => onError defaultIntervalMs defaultFadeMs
  end.

End Loader.

(** ** The component: state, the host's interval table and the interval
       effect (lines 192-208, 259-267, 274-321) *)

Module Component.

(** An interval registered with the host: its callback is the closure of
    lines 278-315, which captures the [images] of the render that
    created it; [delay] is the period it was registered with. *)
Record timer : Type := Timer {
  callbackImages : list value;
  delay : number
}.

Record state : Type := State {
  images : list value;
  intervalMs : number;
  cards : list card;
  (** [timerRef.current]: [null] or the handle [setInterval] returned. *)
  timerRef : option positive;
  (** The host's list of active intervals, as far as this component
      created them. *)
  activeTimers : gmap positive timer;
  (** Whether the last run of the interval effect returned its cleanup
      function (the early [return] of line 275 returns none). *)
  hasCleanup : bool
}.

Definition withCards (st : state) (cs : list card) : state :=
  {| images := images st; intervalMs := intervalMs st; cards := cs;
     timerRef := timerRef st; activeTimers := activeTimers st;
     hasCleanup := hasCleanup st |}.

Definition withTimers (st : state) (ts : gmap positive timer) : state :=
  {| images := images st; intervalMs := intervalMs st; cards := cards st;
     timerRef := timerRef st; activeTimers := ts;
     hasCleanup := hasCleanup st |}.

(** The state after the first render: no image, the default period, three
    empty cards, no interval. *)
Definition mount (defaultIntervalMs : number) : state :=
  {| images := []; intervalMs := defaultIntervalMs; cards := initialCards;
     timerRef := None; activeTimers := ∅; hasCleanup := false |}.

(** [clearInterval(id)]: the host forgets the handle; an unknown handle
    is ignored. *)
Definition clearInterval (id : positive) (st : state) : state :=
  withTimers st (delete id (activeTimers st)).

(** [if (timerRef.current) clearInterval(timerRef.current)]; a handle is
    a positive integer, hence truthy. *)
Definition clearCurrent (st : state) : state :=
  match timerRef st with
  | Some id => clearInterval id st
  | None => st
  end.

(** The body of the interval effect (lines 275-316); [id] is the handle
    the host returns from [setInterval]. *)
Definition intervalEffect (id : positive) (st : state) : state :=
  if decide (length (images st) = 0) then
    {| images := images st; intervalMs := intervalMs st; cards := cards st;
       timerRef := timerRef st; activeTimers := activeTimers st;
       hasCleanup := false |}
  else
    let st1 := clearCurrent st in
    {| images := images st1; intervalMs := intervalMs st1;
       cards := cards st1;
       timerRef := Some id;
       activeTimers :=
         <[id := {| callbackImages := images st1;
                    delay := intervalMs st1 |}]> (activeTimers st1);
       hasCleanup := true |}.

(** The cleanup function of the interval effect (lines 318-320), run
    before the effect runs again and on unmount, when the last run
    returned it. This is the scheduler's stop. *)
Definition stop (st : state) : state :=
  if hasCleanup st then
    let st1 := clearCurrent st in
    {| images := images st1; intervalMs := intervalMs st1;
       cards := cards st1; timerRef := timerRef st1;
       activeTimers := activeTimers st1; hasCleanup := false |}
  else st.

(** [setImages(imgs)] with a new array, and the commit that follows: the
    interval effect is cleaned up, the initialising effect and then the
    interval effect run. The commit, the effects and the render that
    applies the initialising update are taken as one step: the render
    committed in between, with the new pool and the cards and interval of
    the old one, is not a state of this model. *)
Definition setImages (imgs : list value) (id : positive) (st : state)
    : Rand state :=
  let st1 :=
    stop {| images := imgs; intervalMs := intervalMs st; cards := cards st;
            timerRef := timerRef st; activeTimers := activeTimers st;
            hasCleanup := hasCleanup st |} in
  cs ← initialize imgs (cards st1);
  mret (intervalEffect id (withCards st1 cs)).

(** [setIntervalMs(ms)] and the commit that follows; an unchanged value
    causes no render. *)
Definition setIntervalMs (ms : number) (id : positive) (st : state)
    : state :=
  if Object_is ms (intervalMs st) then st
  else
    intervalEffect id
      (stop {| images := images st; intervalMs := ms; cards := cards st;
               timerRef := timerRef st; activeTimers := activeTimers st;
               hasCleanup := hasCleanup st |}).

(** The host's timer mechanism fires handle [id]: the callback of an
    active interval runs and its updater is applied to [cards]; a handle
    that is not (or no longer) in the list of active intervals runs
    nothing. *)
Definition fire (fuel : nat) (id : positive) (st : state) : Rand state :=
  match activeTimers st !! id with
  | Some t =>
      cs ← tick fuel (callbackImages t) (cards st);
      mret (withCards st cs)
  | None => mret st
  end.

(** Firings in sequence, each with its own fuel. *)
Fixpoint fireAll (firings : list (nat * positive)) (st : state)
    : Rand state :=
  match firings with
  | [] => mret st
  | (fuel, id) :: rest =>
      st' ← fire fuel id st;
      fireAll rest st'
  end.

(** The states of a mounted component once the effects of its last
    commit have run. *)
Inductive reachable (defaultIntervalMs : number) : state → Prop :=
  | reach_mount :
      reachable defaultIntervalMs (mount defaultIntervalMs)
  | reach_setImages st imgs id g st' g' :
      reachable defaultIntervalMs st →
      setImages imgs id st g = Some (st', g') →
      reachable defaultIntervalMs st'
  | reach_setIntervalMs st ms id :
      reachable defaultIntervalMs st →
      reachable defaultIntervalMs (setIntervalMs ms id st)
  | reach_fire st fuel id g st' g' :
      reachable defaultIntervalMs st →
      fire fuel id st g = Some (st', g') →
      reachable defaultIntervalMs st'.

End Component.

(** Repeated ticks on one pool. *)
Fixpoint ticks (n fuel : nat) (images : list value) (cards : list card)
    : Rand (list card) :=
  match n with
  | 0 => mret cards
  | S n' =>
      cards' ← tick fuel images cards;
      ticks n' fuel images cards'
  end.

(** ** Abbreviation used in the statements about the loader *)

(** The timing the loader keeps for a number [x], the expression of lines
    234 and 235: [Number.isFinite(x) && x > 0 ? x : default]. *)
Definition timing (x : number) (default : number) : number :=
  if Number_isFinite x && gt0 x then x else default.

(** ** Invariants of the interval lifecycle *)

(** Every active interval is the one [timerRef] holds, and the effect that
    created it returned its cleanup. *)
Definition timers_tracked (st : Component.state) : Prop :=
  ∀ id t, Component.activeTimers st !! id = Some t →
    Component.timerRef st = Some id ∧ Component.hasCleanup st = true.

(** The callback of every active interval captured the current, non-empty
    [images]. *)
Definition timers_current (st : Component.state) : Prop :=
  ∀ id t, Component.activeTimers st !! id = Some t →
    Component.callbackImages t = Component.images st ∧
    Component.images st ≠ [].

(** ** Concrete inputs used by the examples below *)

(** Results of [Math.random()]: 0, 1/2 and 9/10. *)
Definition draw_0 : unit_draw := UnitDraw 0 eq_refl.
Definition draw_half : unit_draw := UnitDraw (1 # 2) eq_refl.
Definition draw_high : unit_draw := UnitDraw (9 # 10) eq_refl.

(** Three cards that show a, b and c. *)
Definition cards_abc : list card :=
  [ {| a := Str "a"; b := Str "a"; showA := true |};
    {| a := Str "b"; b := Str "b"; showA := true |};
    {| a := Str "c"; b := Str "c"; showA := true |} ].

(** A pool with four distinct identifiers and an empty string. *)
Definition pool_with_blank : list value :=
  [ Str EmptyString; Str "a"; Str "b"; Str "c"; Str "d" ].

(** The draws 0, 0, 1/2, then 9/10 for ever. *)
Definition draws_blank : random_source :=
  λ n, match n with
       | 0 | 1 => draw_0
       | 2 => draw_half
       | _ => draw_high
       end.

(** Conversions for examples whose values hold no text to convert: every
    string converts to [NaN], every number prints as the empty string. *)
Definition no_text_coercions : Coercions :=
  {| StringToNumber := λ _, NaN; NumberToString := λ _, EmptyString |}.

(** A configuration whose upper-case interval is 0 and whose camel-case
    interval is 7000. *)
Definition config_zero_interval : json :=
  JObj [ ("images", JArr [JStr "x.png"; JStr "y.png"]);
         ("INTERVAL_MS", JNum (Finite 0));
         ("intervalMs", JNum (Finite 7000)) ].

(** A configuration whose [FADE_MS] is an object with an own [toString]
    key, which [Number(...)] cannot convert. *)
Definition config_unconvertible_fade : json :=
  JObj [ ("images", JArr [JStr "x.png"; JStr "y.png"]);
         ("INTERVAL_MS", JNum (Finite 7000));
         ("FADE_MS", JObj [ ("toString", JNum (Finite 0)) ]) ].

(** The component after the pool a, b was loaded under [draws_blank] and
    the host returned handle 1: the cards show a, a, b and interval 1 is
    active. *)
Definition state_ab : Component.state :=
  {| Component.images := [Str "a"; Str "b"];
     Component.intervalMs := Finite 5000;
     Component.cards :=
       [ {| a := Str "a"; b := Str "a"; showA := true |};
         {| a := Str "a"; b := Str "a"; showA := true |};
         {| a := Str "b"; b := Str "b"; showA := true |} ];
     Component.timerRef := Some 1%positive;
     Component.activeTimers :=
       {[ 1%positive := {| Component.callbackImages := [Str "a"; Str "b"];
                           Component.delay := Finite 5000 |} ]};
     Component.hasCleanup := true |}.

(** ** Rendering (lines 75-96 and 327-336) *)

Module Render.

(** An [<img>] element as [Card] writes it: its class, its source and the
    transition duration of its style. *)
Record img : Type := Img {
  className : string;
  src : value;
  transitionDuration : string
}.

#[global] Instance img_eq_dec : EqDecision img.
Proof. solve_decision. Defined.

(** The [<img>] children of the [<div className="tcf-card">] that [Card]
    returns: [{aSrc && (<img ... />)}] renders an element only for a
    truthy source. *)
Definition Card `{Coercions}
    (aSrc bSrc : value) (showA : bool) (fadeMs : number) : list img :=
  (if truthy aSrc then
     [ {| className := "tcf-layer " ++ (if showA then "visible" else EmptyString);
          src := aSrc;
          transitionDuration := NumberToString fadeMs ++ "ms" |} ]
   else []) ++
  (if truthy bSrc then
     [ {| className :=
            "tcf-layer " ++ (if negb showA then "visible" else EmptyString);
          src := bSrc;
          transitionDuration := NumberToString fadeMs ++ "ms" |} ]
   else []).

(** [cards.map((c, i) => <Card ... />)], the children of the container. *)
Definition content `{Coercions} (cards : list card) (fadeMs : number)
    : list (list img) :=
  (λ c, Card (a c) (b c) (showA c) fadeMs) <$> cards.

(** The elements the style sheet shows: those of class
    [tcf-layer visible]. *)
Definition shown (elements : list img) : list img :=
  filter (λ e, className e = "tcf-layer visible") elements.

End Render.

(** ** Notions used in the statements about the helpers and the lifecycle *)

(** The entry of [list] that the [k]-th draw of [g] selects. *)
Definition drawnEntry (list : list value) (g : random_source) (k : nat)
    : value :=
  at_index list (Math_floor_mul (g k) (length list)).

(** With an empty pool no interval is active; with a non-empty pool
    exactly one is, the one [timerRef] holds, registered for the current
    pool and period. *)
Definition one_interval (st : Component.state) : Prop :=
  if decide (Component.images st = []) then
    Component.activeTimers st = ∅
  else
    ∃ id, Component.timerRef st = Some id ∧
      Component.activeTimers st =
        {[ id := {| Component.callbackImages := Component.images st;
                    Component.delay := Component.intervalMs st |} ]}.

(** While the pool is not empty both layers of every card hold entries of
    the pool. *)
Definition layers_in_pool (st : Component.state) : Prop :=
  Component.images st ≠ [] →
  Forall (λ c, a c ∈ Component.images st ∧ b c ∈ Component.images st)
    (Component.cards st).

(** * Properties *)

(** A closed decidable proposition, settled by evaluating its decision
    procedure. *)
Ltac by_computation :=
  refine (bool_decide_unpack _ _); vm_compute; exact I.

(** ** The random index is within the array *)

Lemma draw_bounds (r : unit_draw) : (0 <= draw_value r)%Q ∧ (draw_value r < 1)%Q.
Proof.
  destruct r as [q Hq]; simpl.
  apply andb_true_iff in Hq as [H0 H1].
  apply Qle_bool_iff in H0.
  apply negb_true_iff in H1.
  split; [done|].
  apply Qnot_le_lt. intros Hle.
  apply Qle_bool_iff in Hle. congruence.
Qed.

Lemma Math_floor_mul_lt (r : unit_draw) (n : nat) :
  0 < n → Math_floor_mul r n < n.
Proof.
  intros Hn. unfold Math_floor_mul.
  destruct (draw_bounds r) as [_ H1].
  set (x := (draw_value r * inject_Z (Z.of_nat n))%Q).
  assert (Hx : (x < inject_Z (Z.of_nat n))%Q).
  { unfold x.
    apply Qlt_le_trans with (1 * inject_Z (Z.of_nat n))%Q.
    - apply Qmult_lt_compat_r; [|done].
      change 0%Q with (inject_Z 0). rewrite <- Zlt_Qlt. lia.
    - apply Qle_lteq. right. apply Qmult_1_l. }
  assert (Hf : (Qfloor x < Z.of_nat n)%Z).
  { rewrite Zlt_Qlt. eapply Qle_lt_trans; [apply Qfloor_le|done]. }
  lia.
Qed.

Lemma Math_floor_mul_1 (r : unit_draw) : Math_floor_mul r 1 = 0.
Proof. pose proof (Math_floor_mul_lt r 1). lia. Qed.

Lemma at_index_elem (list : list value) (idx : nat) :
  idx < length list → at_index list idx ∈ list.
Proof.
  intros Hlt. unfold at_index.
  destruct (lookup_lt_is_Some_2 list idx Hlt) as [v Hv].
  rewrite Hv. simpl. by eapply list_elem_of_lookup_2.
Qed.

Lemma drawn_elem (list : list value) (r : unit_draw) :
  list ≠ [] → at_index list (Math_floor_mul r (length list)) ∈ list.
Proof.
  intros Hne. apply at_index_elem, Math_floor_mul_lt.
  destruct list; [done|simpl; lia].
Qed.

(** ** Running a computation of [Rand] *)

Lemma Rand_bind_Some {A B : Type} (m : Rand A) (f : A → Rand B) g y g2 :
  (m ≫= f) g = Some (y, g2) ↔
  ∃ x g1, m g = Some (x, g1) ∧ f x g1 = Some (y, g2).
Proof.
  unfold mbind, Rand_bind.
  destruct (m g) as [[x g1]|].
  - split; [eauto|]. by intros (? & ? & [= -> ->] & ?).
  - split; [done|]. by intros (? & ? & ? & _).
Qed.

Lemma Rand_bind_None {A B : Type} (m : Rand A) (f : A → Rand B) g :
  (m ≫= f) g = None ↔
  m g = None ∨ ∃ x g1, m g = Some (x, g1) ∧ f x g1 = None.
Proof.
  unfold mbind, Rand_bind.
  destruct (m g) as [[x g1]|].
  - split; [eauto 6|]. intros [|(? & ? & [= -> ->] & ?)]; done.
  - split; [auto|done].
Qed.

(** ** The rejection loop of [pickRandomExcluding] *)

(** If the loop returns, its result differs from [exclude] and is the
    starting candidate or an entry of the array. *)
Lemma loop_returns fuel (list : list value) exclude candidate g v g' :
  list ≠ [] →
  pickRandomExcluding_loop fuel list exclude candidate g = Some (v, g') →
  v ≠ exclude ∧ (v = candidate ∨ v ∈ list).
Proof.
  intros Hne. revert candidate g.
  induction fuel as [|fuel IH]; intros candidate g; simpl.
  - case_decide; [done|]. intros [= <- <-]. auto.
  - case_decide.
    + intros Hrun. apply IH in Hrun as [Hv [->|Hin]]; split; auto.
      right. by apply drawn_elem.
    + intros [= <- <-]. auto.
Qed.

(** The loop uses up its fuel exactly when every draw lands on an entry
    equal to [exclude]. *)
Lemma loop_out_of_fuel fuel (list : list value) exclude g :
  pickRandomExcluding_loop fuel list exclude exclude g = None ↔
  ∀ k, k < fuel →
    at_index list (Math_floor_mul (g k) (length list)) = exclude.
Proof.
  revert g. induction fuel as [|fuel IH]; intros g; simpl.
  - rewrite decide_True by done. split; [intros _ k; lia|done].
  - rewrite decide_True by done.
    unfold mbind, Rand_bind, Math_random.
    set (c := at_index list (Math_floor_mul (g 0) (length list))).
    destruct (decide (c = exclude)) as [Hc|Hc].
    + rewrite Hc, IH. split.
      * intros H [|k] Hk; [done|]. apply (H k). lia.
      * intros H k Hk. apply (H (S k)). lia.
    + destruct fuel; simpl; rewrite decide_False by done.
      all: split; [done|]; intros H; destruct Hc; apply (H 0); lia.
Qed.

(** On an array of two or more entries that are all equal to [exclude] the
    loop never ends. *)
Lemma loop_never_ends fuel (list : list value) exclude g :
  list ≠ [] →
  Forall (λ x, x = exclude) list →
  pickRandomExcluding_loop fuel list exclude exclude g = None.
Proof.
  intros Hne Hall. apply loop_out_of_fuel. intros k _.
  rewrite Forall_forall in Hall. by apply Hall, drawn_elem.
Qed.

(** ** [pickRandomNotIn] *)

Lemma filter_none {A : Type} (P : A → Prop) `{∀ x, Decision (P x)}
    (l : list A) :
  Forall (λ x, ¬ P x) l → filter P l = [].
Proof.
  induction 1 as [|x l Hx _ IH]; [done|].
  by rewrite filter_cons_False.
Qed.

(** [pickRandomNotIn] always returns, after at most one draw. *)
Lemma pickRandomNotIn_total (list : list value) (excludeSet : gset value) g :
  ∃ v g', pickRandomNotIn list excludeSet g = Some (v, g').
Proof.
  unfold pickRandomNotIn. repeat case_decide; eauto.
Qed.

(** Its result is [null] or an entry of the array outside the set. *)
Lemma pickRandomNotIn_result (list : list value) (excludeSet : gset value)
    g v g' :
  pickRandomNotIn list excludeSet g = Some (v, g') →
  (v = Null ∧ g' = g ∧ (filter (λ x, x ∉ excludeSet) list = [])) ∨
  (v ∈ list ∧ (v ∉ excludeSet) ∧ (filter (λ x, x ∉ excludeSet) list ≠ [])).
Proof.
  unfold pickRandomNotIn.
  set (candidates := filter (λ x, x ∉ excludeSet) list).
  case_decide as Hl.
  { intros [= <- <-]. left. repeat split.
    destruct list; [done|simpl in Hl; lia]. }
  case_decide as Hc.
  { intros [= <- <-]. left. repeat split. by apply nil_length_inv. }
  unfold mbind, Rand_bind, Math_random. intros [= <- <-]. right.
  assert (Hne : candidates ≠ []) by (by intros ->).
  pose proof (drawn_elem candidates (g 0) Hne) as Hin.
  unfold candidates in Hin at 2.
  apply list_elem_of_filter in Hin as [Hnot Hin]. done.
Qed.

(** With no candidate left, [pickRandomNotIn] returns [null] without a
    draw. *)
Lemma pickRandomNotIn_none (list : list value) (excludeSet : gset value) g :
  filter (λ x, x ∉ excludeSet) list = [] →
  pickRandomNotIn list excludeSet g = Some (Null, g).
Proof.
  intros Hc. unfold pickRandomNotIn. rewrite Hc. simpl.
  by repeat case_decide.
Qed.

(** With a single candidate, [pickRandomNotIn] returns it. *)
Lemma pickRandomNotIn_single (list : list value) (excludeSet : gset value)
    x g :
  filter (λ x, x ∉ excludeSet) list = [x] →
  pickRandomNotIn list excludeSet g = Some (x, λ n, g (S n)).
Proof.
  intros Hc. unfold pickRandomNotIn. rewrite Hc.
  destruct (decide (length list = 0)) as [Hl|Hl].
  { destruct list; [done|simpl in Hl; lia]. }
  simpl. unfold mbind, Rand_bind, Math_random.
  by rewrite Math_floor_mul_1.
Qed.

(** ** Claims on the selection *)

(** C7 (fallback precedence): with the pool a, b, c, d, the visible set
    a, b, c and a target card showing a, the selection returns d, the one
    entry that is visible nowhere, whatever the random source and without
    entering the rejection loop (any fuel does). *)
Theorem C7_fallback_precedence (fuel : nat) (g : random_source) :
  selectNext fuel [Str "a"; Str "b"; Str "c"; Str "d"]
    {[Str "a"; Str "b"; Str "c"]} (Str "a") g
  = Some (Str "d", λ n, g (S n)).
Proof.
  unfold selectNext.
  apply Rand_bind_Some. eexists _, _. split.
  { apply pickRandomNotIn_single. by vm_compute. }
  done.
Qed.

(** A result of [Math.random()] of at least 1/3 selects index 1 or 2 of an
    array of three entries: three times it is at least 1. *)
Lemma upper_draw_index (r : unit_draw) :
  (1 # 3 <= draw_value r)%Q → Math_floor_mul r 3 ≠ 0.
Proof.
  intros Hr. unfold Math_floor_mul.
  assert (Hfloor : (1 <= Qfloor (draw_value r * inject_Z (Z.of_nat 3)))%Z).
  { change 1%Z with (Qfloor 1). apply Qfloor_resp_le.
    destruct (draw_value r) as [p q]. unfold Qle in *. simpl in *.
    rewrite Pos.mul_1_r. lia. }
  lia.
Qed.

(** C6 (all-visible fallback): with the pool a, b, c, all three visible,
    and a target card showing a, the selection never returns a: whatever
    it returns is b or c; and it does return, with b or c, as soon as one
    of the draws within the fuel is at least 1/3, that is, does not land
    on a. Both results occur: a first draw of 1/2 gives b, one of 9/10
    gives c. *)
Theorem C6_all_visible_fallback (fuel : nat) (g : random_source) :
  (∀ v g',
     selectNext fuel [Str "a"; Str "b"; Str "c"]
       {[Str "a"; Str "b"; Str "c"]} (Str "a") g = Some (v, g') →
     v = Str "b" ∨ v = Str "c") ∧
  (∀ k, k < fuel → (1 # 3 <= draw_value (g k))%Q →
     ∃ v g',
       selectNext fuel [Str "a"; Str "b"; Str "c"]
         {[Str "a"; Str "b"; Str "c"]} (Str "a") g = Some (v, g') ∧
       (v = Str "b" ∨ v = Str "c")) ∧
  fst <$> selectNext 1 [Str "a"; Str "b"; Str "c"]
            {[Str "a"; Str "b"; Str "c"]} (Str "a") (λ _, draw_half)
    = Some (Str "b") ∧
  fst <$> selectNext 1 [Str "a"; Str "b"; Str "c"]
            {[Str "a"; Str "b"; Str "c"]} (Str "a") (λ _, draw_high)
    = Some (Str "c").
Proof.
  set (images := [Str "a"; Str "b"; Str "c"]).
  set (visibleSet := ({[Str "a"; Str "b"; Str "c"]} : gset value)).
  assert (Hnone : pickRandomNotIn images visibleSet g = Some (Null, g)).
  { apply pickRandomNotIn_none. by vm_compute. }
  assert (Hsel : selectNext fuel images visibleSet (Str "a") g =
    (newImg ← pickRandomExcluding_loop fuel images (Str "a") (Str "a");
     mret (if truthy newImg then newImg else Str "a")) g).
  { unfold selectNext. unfold mbind at 1 2. unfold Rand_bind at 1 2.
    rewrite Hnone. done. }
  assert (Hsafe : ∀ v g',
    selectNext fuel images visibleSet (Str "a") g = Some (v, g') →
    v = Str "b" ∨ v = Str "c").
  { intros v g'. rewrite Hsel.
    intros (v1 & g1 & Hloop & Hlast)%Rand_bind_Some.
    apply loop_returns in Hloop as [Hv Hin]; [|done].
    assert (Hbc : v1 = Str "b" ∨ v1 = Str "c").
    { destruct Hin as [->|Hin]; [done|].
      unfold images in Hin.
      repeat (apply elem_of_cons in Hin as [->|Hin]; [by auto|]).
      by apply elem_of_nil in Hin. }
    injection Hlast as <- _. by destruct Hbc as [-> | ->]; [left|right]. }
  split; [exact Hsafe|]. split.
  - intros k Hk Hdraw.
    destruct (pickRandomExcluding_loop fuel images (Str "a") (Str "a") g)
      as [[v1 g1]|] eqn:Hloop.
    { exists (if truthy v1 then v1 else Str "a"), g1.
      assert (Hrun : selectNext fuel images visibleSet (Str "a") g
                     = Some (if truthy v1 then v1 else Str "a", g1)).
      { rewrite Hsel. unfold mbind, Rand_bind. by rewrite Hloop. }
      split; [done|]. by apply (Hsafe _ g1). }
    exfalso.
    pose proof (proj1 (loop_out_of_fuel fuel images (Str "a") g) Hloop k Hk)
      as Hall.
    simpl in Hall. apply (upper_draw_index (g k) Hdraw).
    pose proof (Math_floor_mul_lt (g k) 3 ltac:(lia)) as Hlt.
    destruct (Math_floor_mul (g k) 3) as [|[|[|?]]]; [done|done|done|lia].
  - split; by vm_compute.
Qed.

(** C6 under the draws 0, 0, 1/2, ...: the third draw is at least 1/3 and
    the selection returns b or c. *)
Lemma C6_all_visible_fallback_witness :
  2 < 3 ∧ (1 # 3 <= draw_value (draws_blank 2%nat))%Q ∧
  ∃ v g',
    selectNext 3 [Str "a"; Str "b"; Str "c"]
      {[Str "a"; Str "b"; Str "c"]} (Str "a") draws_blank = Some (v, g') ∧
    (v = Str "b" ∨ v = Str "c").
Proof.
  assert (H1 : 2 < 3) by lia.
  assert (H2 : (1 # 3 <= draw_value (draws_blank 2%nat))%Q)
    by (vm_compute; discriminate).
  split; [exact H1|]. split; [exact H2|].
  destruct (C6_all_visible_fallback 3 draws_blank) as (_ & Hlive & _).
  exact (Hlive 2 H1 H2).
Defined.

(** With two or more entries that all equal the target card's image, and
    that image visible, the selection never returns: no candidate is left
    for [pickRandomNotIn], and [pickRandomExcluding] rejects every draw. *)
Lemma selectNext_duplicate_pool fuel (images : list value) v
    (visibleSet : gset value) g :
  1 < length images →
  Forall (λ x, x = v) images →
  v ∈ visibleSet →
  selectNext fuel images visibleSet v g = None.
Proof.
  intros Hlen Hall Hvis. unfold selectNext.
  apply Rand_bind_None. right. exists Null, g. split.
  { apply pickRandomNotIn_none.
    apply filter_none. apply Forall_forall; intros x Hx.
    rewrite Forall_forall in Hall. rewrite (Hall x Hx). tauto. }
  apply Rand_bind_None. left. simpl.
  unfold pickRandomExcluding.
  rewrite !decide_False by lia.
  apply loop_never_ends; [|done].
  destruct images; [simpl in Hlen; lia|done].
Qed.

(** C2 (duplicate-valued pool), at the pool a, a with a visible and shown
    by the target card: whatever the fuel and the random source, the
    selection does not return; the loop of [pickRandomExcluding] rejects
    every draw, so the fallback to the current image is never reached. *)
Theorem C2_duplicate_pool_never_returns (fuel : nat) (g : random_source) :
  selectNext fuel [Str "a"; Str "a"] {[Str "a"]} (Str "a") g = None.
Proof.
  apply selectNext_duplicate_pool.
  - simpl. lia.
  - by repeat constructor.
  - set_solver.
Qed.

(** ** The interval callback *)

Lemma visibleImage_updatedCard (c : card) (newImg : value) :
  visibleImage (updatedCard c newImg) = newImg.
Proof. unfold updatedCard, visibleImage. by destruct (showA c). Qed.

Lemma showA_updatedCard (c : card) (newImg : value) :
  showA (updatedCard c newImg) = negb (showA c).
Proof. unfold updatedCard. by destruct (showA c). Qed.

(** The layer that was active keeps its image. *)
Lemma active_layer_updatedCard (c : card) (newImg : value) :
  (if showA c then a (updatedCard c newImg) else b (updatedCard c newImg))
  = visibleImage c.
Proof. unfold updatedCard, visibleImage. by destruct (showA c). Qed.

(** The target index is one of 0, 1, 2. *)
Lemma target_in_range (cards : list card) (r : unit_draw) :
  length cards = 3 → is_Some (cards !! Math_floor_mul r 3).
Proof.
  intros Hlen. apply lookup_lt_is_Some. rewrite Hlen.
  apply Math_floor_mul_lt. lia.
Qed.

(** What one run of the callback does, given what the selection does. *)
Lemma tick_unfold fuel images (prev : list card) g (c : card) :
  prev !! Math_floor_mul (g 0) 3 = Some c →
  tick fuel images prev g =
  match selectNext fuel images (list_to_set (visibleList prev))
          (visibleImage c) (λ n, g (S n)) with
  | Some (newImg, g') =>
      Some (<[Math_floor_mul (g 0) 3 := updatedCard c newImg]> prev, g')
  | None => None
  end.
Proof.
  intros Hc. unfold tick, mbind, Rand_bind, Math_random.
  rewrite Hc. by destruct (selectNext _ _ _ _ _) as [[? ?]|].
Qed.

(** The selection returns, or it is in the rejection loop and every draw
    so far landed on the target card's image; the loop starts at the first
    draw, or at the second when [pickRandomNotIn] drew a falsy entry. *)
Lemma selectNext_cases fuel (images : list value) (visibleSet : gset value)
    currentVisible g :
  (∃ v g', selectNext fuel images visibleSet currentVisible g = Some (v, g')) ∨
  (selectNext fuel images visibleSet currentVisible g = None ∧
   1 < length images ∧
   ∃ off : nat, (off ≤ 1)%nat ∧ ∀ k : nat, k < fuel →
     at_index images (Math_floor_mul (g (off + k)) (length images))
     = currentVisible).
Proof.
  unfold selectNext.
  destruct (pickRandomNotIn_total images visibleSet g) as (v0 & g0 & Hpick).
  assert (Hg0 : ∃ off : nat, (off ≤ 1)%nat ∧ ∀ n, g0 n = g (off + n)).
  { revert Hpick. unfold pickRandomNotIn. repeat case_decide.
    1,2: intros [= _ <-]; exists 0; split; [lia|done].
    unfold mbind, Rand_bind, Math_random. intros [= _ <-].
    exists 1. split; [lia|done]. }
  assert (Hsel : selectNext fuel images visibleSet currentVisible g =
    (newImg ← (if truthy v0 then mret v0
               else pickRandomExcluding fuel images currentVisible);
     mret (if truthy newImg then newImg else currentVisible)) g0).
  { unfold selectNext. unfold mbind at 1. unfold Rand_bind at 1.
    by rewrite Hpick. }
  fold (selectNext fuel images visibleSet currentVisible).
  rewrite Hsel. clear Hsel. unfold mbind, Rand_bind.
  destruct (truthy v0) eqn:Hv0.
  { left. simpl. eauto. }
  unfold pickRandomExcluding.
  case_decide; [left; simpl; eauto|].
  case_decide; [left; simpl; eauto|].
  destruct (pickRandomExcluding_loop fuel images currentVisible
              currentVisible g0) as [[v1 g1]|] eqn:Hloop.
  { left. simpl. eauto. }
  right. split; [done|]. split; [lia|].
  destruct Hg0 as (off & Hoff & Hg0). exists off. split; [done|].
  intros k Hk. rewrite <- Hg0.
  by apply (proj1 (loop_out_of_fuel fuel images currentVisible g0) Hloop).
Qed.

(** A returned selection is an entry of the pool or the current image. *)
Lemma selectNext_result fuel (images : list value) (visibleSet : gset value)
    currentVisible g v g' :
  images ≠ [] →
  selectNext fuel images visibleSet currentVisible g = Some (v, g') →
  v ∈ images ∨ v = currentVisible.
Proof.
  intros Hne. unfold selectNext.
  intros (v0 & g0 & Hpick & Hrest)%Rand_bind_Some.
  apply Rand_bind_Some in Hrest as (v1 & g1 & Hsecond & Hlast).
  injection Hlast as <- <-.
  destruct (truthy v1) eqn:Hv1; [|by right]. left.
  destruct (truthy v0) eqn:Hv0.
  - injection Hsecond as <- <-.
    apply pickRandomNotIn_result in Hpick as [(-> & _)|(Hin & _)]; done.
  - revert Hsecond. unfold pickRandomExcluding.
    case_decide; [by intros [= <- <-]|].
    case_decide.
    + intros [= <- <-]. apply at_index_elem. lia.
    + intros [Hv [->|Hin]]%loop_returns; done.
Qed.

(** A truthy pick of [pickRandomNotIn] is the selection. *)
Lemma selectNext_first_choice fuel (images : list value)
    (visibleSet : gset value) currentVisible g v g' :
  pickRandomNotIn images visibleSet g = Some (v, g') →
  truthy v = true →
  selectNext fuel images visibleSet currentVisible g = Some (v, g').
Proof.
  intros Hpick Hv. unfold selectNext.
  apply Rand_bind_Some. exists v, g'. split; [done|].
  rewrite Hv. simpl. unfold mbind, Rand_bind, mret, Rand_ret. by rewrite Hv.
Qed.

(** X19 (frame of one tick): on a non-empty pool and three cards, the
    callback picks the target card by its first draw and

    - either returns: the array still has three cards, the target card has
      flipped [showA], the layer that was active keeps its image, the image
      now shown is an entry of the pool or the image shown before, and the
      two other cards are the same as before;
    - or is still in the rejection loop of [pickRandomExcluding] after
      [fuel] draws, every one of which landed on the target card's current
      image; nothing has been written then. *)
Theorem tick_frame (fuel : nat) (images : list value) (cards : list card)
    (g : random_source) :
  images ≠ [] →
  length cards = 3 →
  ∃ (target : nat) (currentCard : card),
    target = Math_floor_mul (g 0) 3 ∧ target < 3 ∧
    cards !! target = Some currentCard ∧
    ((∃ cards' g' updated,
        tick fuel images cards g = Some (cards', g') ∧
        length cards' = 3 ∧
        cards' !! target = Some updated ∧
        showA updated = negb (showA currentCard) ∧
        (if showA currentCard
         then a updated = a currentCard
         else b updated = b currentCard) ∧
        (visibleImage updated ∈ images ∨
         visibleImage updated = visibleImage currentCard) ∧
        ∀ i : nat, i ≠ target → cards' !! i = cards !! i)
     ∨
     (tick fuel images cards g = None ∧
      1 < length images ∧
      ∃ off : nat, (1 ≤ off)%nat ∧ (off ≤ 2)%nat ∧ ∀ k : nat, k < fuel →
        at_index images (Math_floor_mul (g (off + k)) (length images))
        = visibleImage currentCard)).
Proof.
  intros Hne Hlen.
  destruct (target_in_range cards (g 0) Hlen) as [c Hc].
  exists (Math_floor_mul (g 0) 3), c.
  assert (Hlt : Math_floor_mul (g 0) 3 < 3) by (apply Math_floor_mul_lt; lia).
  repeat split; [done|done|].
  rewrite (tick_unfold _ _ _ _ _ Hc).
  destruct (selectNext_cases fuel images (list_to_set (visibleList cards))
              (visibleImage c) (λ n, g (S n)))
    as [(v & g' & Hsel)|(Hsel & Hlen2 & off & Hoff & Hall)].
  - left. rewrite Hsel.
    exists (<[Math_floor_mul (g 0) 3 := updatedCard c v]> cards), g',
      (updatedCard c v).
    split; [done|].
    split; [by rewrite length_insert|].
    split; [apply list_lookup_insert_eq; lia|].
    split; [apply showA_updatedCard|].
    split.
    { pose proof (active_layer_updatedCard c v) as Hact.
      unfold visibleImage in Hact. by destruct (showA c). }
    split.
    { rewrite visibleImage_updatedCard. by eapply selectNext_result. }
    intros i Hi. by apply list_lookup_insert_ne.
  - right. rewrite Hsel. split; [done|]. split; [done|].
    exists (S off). split; [lia|]. split; [lia|].
    intros k Hk. apply (Hall k Hk).
Qed.

(** The hypotheses of the frame hold of the pool a, b and the cards that
    show a, b and c. *)
Lemma tick_frame_witness :
  [Str "a"; Str "b"] ≠ [] ∧ length cards_abc = 3 ∧
  ∃ (target : nat) (currentCard : card),
    target = Math_floor_mul (draws_blank 0) 3 ∧ target < 3 ∧
    cards_abc !! target = Some currentCard ∧
    ((∃ cards' g' updated,
        tick 3 [Str "a"; Str "b"] cards_abc draws_blank
          = Some (cards', g') ∧
        length cards' = 3 ∧
        cards' !! target = Some updated ∧
        showA updated = negb (showA currentCard) ∧
        (if showA currentCard
         then a updated = a currentCard
         else b updated = b currentCard) ∧
        (visibleImage updated ∈ [Str "a"; Str "b"] ∨
         visibleImage updated = visibleImage currentCard) ∧
        ∀ i : nat, i ≠ target → cards' !! i = cards_abc !! i)
     ∨
     (tick 3 [Str "a"; Str "b"] cards_abc draws_blank = None ∧
      1 < length [Str "a"; Str "b"] ∧
      ∃ off : nat, (1 ≤ off)%nat ∧ (off ≤ 2)%nat ∧ ∀ k : nat, k < 3 →
        at_index [Str "a"; Str "b"]
          (Math_floor_mul (draws_blank (off + k))
             (length [Str "a"; Str "b"]))
        = visibleImage currentCard)).
Proof.
  split; [discriminate|]. split; [reflexivity|].
  apply (tick_frame 3 [Str "a"; Str "b"] cards_abc draws_blank).
  - discriminate.
  - reflexivity.
Defined.

(** ** A pool of one entry *)

(** On a pool of one entry, shown by the target card, the selection
    returns that entry without entering the loop. *)
Lemma selectNext_single fuel (x : value) (visibleSet : gset value) g :
  ∃ g', selectNext fuel [x] visibleSet x g = Some (x, g').
Proof.
  unfold selectNext, pickRandomNotIn. simpl.
  rewrite filter_cons, filter_nil.
  destruct (decide (x ∉ visibleSet)); simpl;
    unfold mbind, Rand_bind, Math_random, mret, Rand_ret; simpl.
  - rewrite Math_floor_mul_1.
    change (at_index [x] 0) with x.
    destruct (truthy x) eqn:Hx; simpl;
      change (at_index [x] 0) with x; rewrite ?Hx; eauto.
  - change (at_index [x] 0) with x.
    destruct (truthy x) eqn:Hx; simpl;
      change (at_index [x] 0) with x; rewrite ?Hx; eauto.
Qed.

Lemma tick_single fuel (x : value) (cards : list card) g :
  Forall (λ c, visibleImage c = x) cards →
  ∃ cards' g',
    tick fuel [x] cards g = Some (cards', g') ∧
    Forall (λ c, visibleImage c = x) cards' ∧
    length cards' = length cards.
Proof.
  intros Hall.
  destruct (cards !! Math_floor_mul (g 0) 3) as [c|] eqn:Hc.
  - rewrite (tick_unfold _ _ _ _ _ Hc).
    assert (Hvis : visibleImage c = x).
    { rewrite Forall_forall in Hall. eapply Hall, list_elem_of_lookup_2, Hc. }
    rewrite Hvis.
    destruct (selectNext_single fuel x (list_to_set (visibleList cards))
                (λ n, g (S n))) as [g' ->].
    eexists _, _. split; [done|]. split; [|by rewrite length_insert].
    apply Forall_insert; [done|]. apply visibleImage_updatedCard.
  - exists cards, (λ n, g (S n)). split; [|done].
    unfold tick, mbind, Rand_bind, Math_random. by rewrite Hc.
Qed.

(** Initialising from a pool of one entry makes every card show it. *)
Lemma initialize_single (x : value) (cards : list card) g :
  ∃ cards' g',
    initialize [x] cards g = Some (cards', g') ∧
    Forall (λ c, visibleImage c = x) cards' ∧
    length cards' = length cards.
Proof.
  unfold initialize. simpl. revert g.
  induction cards as [|c cards IH]; intros g; simpl.
  { eexists _, _. by repeat split. }
  unfold mbind, Rand_bind, Math_random.
  destruct (IH (λ n, g (S n))) as (cards' & g' & Hrun & Hall & Hlen).
  unfold mbind, Rand_bind in Hrun. rewrite Hrun.
  eexists _, _. split; [done|]. split; [|simpl; by rewrite Hlen].
  constructor; [|done]. simpl. by rewrite Math_floor_mul_1.
Qed.

(** C8 (degenerate stability): with a pool of exactly one entry [x] and
    every card showing [x], any number of ticks returns (whatever the fuel
    and the random source) and leaves every card showing [x]: the sequence
    of visible images is the same after as before. *)
Theorem C8_single_entry_pool_stable (x : value) (n fuel : nat)
    (cards : list card) (g : random_source) :
  Forall (λ c, visibleImage c = x) cards →
  ∃ cards' g',
    ticks n fuel [x] cards g = Some (cards', g') ∧
    visibleImage <$> cards' = visibleImage <$> cards ∧
    Forall (λ c, visibleImage c = x) cards'.
Proof.
  revert cards g. induction n as [|n IH]; intros cards g Hall; simpl.
  { by exists cards, g. }
  destruct (tick_single fuel x cards g Hall) as (cards1 & g1 & Hrun & Hall1 & Hlen1).
  destruct (IH cards1 g1 Hall1) as (cards' & g' & Hrest & Hvis & Hall').
  exists cards', g'. split.
  { apply Rand_bind_Some. eauto. }
  split; [|done]. rewrite Hvis.
  apply list_eq_same_length with (length cards); rewrite ?length_fmap; [done..|].
  intros i v w _. rewrite !list_lookup_fmap.
  destruct (cards1 !! i) as [c1|] eqn:H1; [|done].
  destruct (cards !! i) as [c0|] eqn:H0; [|done]. simpl.
  intros [= <-] [= <-].
  rewrite Forall_forall in Hall, Hall1.
  rewrite (Hall c0), (Hall1 c1); eauto using list_elem_of_lookup_2.
Qed.

(** The hypothesis of C8 holds of three cards that show [only.png]. *)
Lemma C8_single_entry_pool_stable_witness :
  let cards := [ {| a := Str "only.png"; b := Str "only.png"; showA := true |};
                 {| a := Null; b := Str "only.png"; showA := false |};
                 {| a := Str "only.png"; b := Null; showA := true |} ] in
  Forall (λ c, visibleImage c = Str "only.png") cards ∧
  ∃ cards' g',
    ticks 5 0 [Str "only.png"] cards (λ _, UnitDraw (1 # 2) eq_refl)
      = Some (cards', g') ∧
    visibleImage <$> cards' = visibleImage <$> cards ∧
    Forall (λ c, visibleImage c = Str "only.png") cards'.
Proof.
  simpl.
  assert (H : Forall (λ c, visibleImage c = Str "only.png")
    [ {| a := Str "only.png"; b := Str "only.png"; showA := true |};
      {| a := Null; b := Str "only.png"; showA := false |};
      {| a := Str "only.png"; b := Null; showA := true |} ])
    by (repeat constructor).
  split; [exact H|].
  exact (C8_single_entry_pool_stable (Str "only.png") 5 0 _
           (λ _, UnitDraw (1 # 2) eq_refl) H).
Defined.

(** ** No duplicate among the visible images *)

Lemma elem_of_filter_insert {A : Type} (P : A → Prop) `{∀ x, Decision (P x)}
    (l : list A) (i : nat) (x z : A) :
  z ∈ filter P (<[i:=x]> l) → z = x ∨ z ∈ filter P l.
Proof.
  revert i. induction l as [|y l IH]; intros i.
  { destruct i; inversion 1. }
  destruct i as [|i].
  - change (<[0:=x]> (y :: l)) with (x :: l).
    rewrite !list_elem_of_filter, !elem_of_cons.
    intros [Hz [->|Hin]]; auto.
  - change (<[S i:=x]> (y :: l)) with (y :: <[i:=x]> l).
    rewrite !list_elem_of_filter, !elem_of_cons.
    intros [Hz [->|Hin]]; [by auto|].
    destruct (IH i) as [->|Hin']; [by apply list_elem_of_filter|by auto|].
    apply list_elem_of_filter in Hin' as [_ Hin']. auto.
Qed.

(** Overwriting one entry with a value that is not yet kept by the filter
    keeps the filtered list free of duplicates. *)
Lemma NoDup_filter_insert {A : Type} (P : A → Prop) `{∀ x, Decision (P x)}
    (l : list A) (i : nat) (x : A) :
  NoDup (filter P l) → x ∉ filter P l → NoDup (filter P (<[i:=x]> l)).
Proof.
  revert i. induction l as [|y l IH]; intros i Hnd Hx; [by destruct i|].
  destruct i as [|i].
  - change (<[0:=x]> (y :: l)) with (x :: l).
    rewrite filter_cons in Hnd, Hx. rewrite filter_cons.
    destruct (decide (P y)), (decide (P x)).
    + apply NoDup_cons in Hnd as [_ Hnd]. apply NoDup_cons.
      split; [|done]. set_solver.
    + by apply NoDup_cons in Hnd as [_ Hnd].
    + by apply NoDup_cons.
    + done.
  - change (<[S i:=x]> (y :: l)) with (y :: <[i:=x]> l).
    rewrite filter_cons in Hnd, Hx. rewrite filter_cons.
    destruct (decide (P y)).
    + apply NoDup_cons in Hnd as [Hy Hnd]. apply NoDup_cons. split.
      * intros [->|Hin]%elem_of_filter_insert; [|done].
        apply Hx. by left.
      * apply IH; [done|]. set_solver.
    + by apply IH.
Qed.

(** With four distinct entries in the pool and at most three visible
    images, some entry of the pool is visible nowhere. *)
Lemma candidate_exists (images : list value) (cards : list card) :
  4 ≤ length (remove_dups images) →
  length cards = 3 →
  filter (λ x, x ∉ (list_to_set (visibleList cards) : gset value)) images ≠ [].
Proof.
  intros Hfour Hlen Hnil.
  assert (Hsub : remove_dups images ⊆+ visibleList cards).
  { apply NoDup_submseteq; [apply NoDup_remove_dups|].
    intros x Hx. rewrite elem_of_remove_dups in Hx.
    destruct (decide (x ∈ (list_to_set (visibleList cards) : gset value)))
      as [Hin|Hout].
    - by apply elem_of_list_to_set in Hin.
    - by destruct (filter_nil_not_elem_of _ _ x Hnil Hout). }
  apply submseteq_length in Hsub.
  pose proof (length_filter (λ v, truthy v = true) (visibleImage <$> cards)) as Hf.
  rewrite length_fmap in Hf. unfold visibleList in Hsub. lia.
Qed.

(** C1, as the code has it (no-duplicate guarantee): when every entry of
    the pool is a truthy value (a non-empty string) and at least four
    entries are distinct, one tick on three cards whose visible images are
    free of duplicates returns, without entering the rejection loop
    (whatever the fuel and the random source), and the visible images are
    again free of duplicates. *)
Theorem C1_no_duplicate_preserved (fuel : nat) (images : list value)
    (cards : list card) (g : random_source) :
  Forall (λ v, truthy v = true) images →
  4 ≤ length (remove_dups images) →
  length cards = 3 →
  NoDup (visibleList cards) →
  ∃ cards' g',
    tick fuel images cards g = Some (cards', g') ∧
    length cards' = 3 ∧
    NoDup (visibleList cards').
Proof.
  intros Htruthy Hfour Hlen Hnd.
  destruct (target_in_range cards (g 0) Hlen) as [c Hc].
  rewrite (tick_unfold _ _ _ _ _ Hc).
  set (visibleSet := list_to_set (visibleList cards) : gset value).
  destruct (pickRandomNotIn_total images visibleSet (λ n, g (S n)))
    as (v & g' & Hpick).
  pose proof Hpick as Hres.
  apply pickRandomNotIn_result in Hres as [(_ & _ & Hnil)|(Hin & Hout & _)].
  { by destruct (candidate_exists images cards Hfour Hlen). }
  assert (Hv : truthy v = true).
  { rewrite Forall_forall in Htruthy. by apply Htruthy. }
  rewrite (selectNext_first_choice fuel _ _ (visibleImage c) _ _ _ Hpick Hv).
  eexists _, _. split; [done|]. split; [by rewrite length_insert|].
  unfold visibleList. rewrite list_fmap_insert, visibleImage_updatedCard.
  apply NoDup_filter_insert; [done|].
  intros Hvis. apply Hout. by apply elem_of_list_to_set.
Qed.

(** The hypotheses of C1 hold of the pool a, b, c, d and the cards that
    show a, b and c. *)
Lemma C1_no_duplicate_preserved_witness :
  Forall (λ v, truthy v = true) [Str "a"; Str "b"; Str "c"; Str "d"] ∧
  4 ≤ length (remove_dups [Str "a"; Str "b"; Str "c"; Str "d"]) ∧
  length cards_abc = 3 ∧
  NoDup (visibleList cards_abc) ∧
  ∃ cards' g',
    tick 0 [Str "a"; Str "b"; Str "c"; Str "d"] cards_abc draws_blank
      = Some (cards', g') ∧
    length cards' = 3 ∧
    NoDup (visibleList cards').
Proof.
  assert (H1 : Forall (λ v, truthy v = true)
                 [Str "a"; Str "b"; Str "c"; Str "d"])
    by (repeat constructor).
  assert (H2 : 4 ≤ length (remove_dups [Str "a"; Str "b"; Str "c"; Str "d"]))
    by (vm_compute; lia).
  assert (H3 : length cards_abc = 3) by reflexivity.
  assert (H4 : NoDup (visibleList cards_abc))
    by (by_computation).
  repeat (split; [assumption|]).
  exact (C1_no_duplicate_preserved 0 _ cards_abc draws_blank H1 H2 H3 H4).
Defined.

(** C1 as stated fails when the pool also holds an empty string: with the
    pool of the empty string, a, b, c, d and the cards showing a, b, c, the
    first draw targets card 0, the second makes [pickRandomNotIn] return
    the empty string, which the callback takes for "no image", and the
    third makes [pickRandomExcluding] return b, which card 1 already
    shows. *)
Lemma C1_counterexample :
  4 ≤ length (remove_dups pool_with_blank) ∧
  length cards_abc = 3 ∧
  NoDup (visibleList cards_abc) ∧
  ∃ cards' g',
    tick 1 pool_with_blank cards_abc draws_blank = Some (cards', g') ∧
    visibleImage <$> cards' = [Str "b"; Str "b"; Str "c"] ∧
    ¬ NoDup (visibleList cards').
Proof.
  split; [vm_compute; lia|].
  split; [reflexivity|].
  split; [by_computation|].
  exists [ {| a := Str "a"; b := Str "b"; showA := false |};
           {| a := Str "b"; b := Str "b"; showA := true |};
           {| a := Str "c"; b := Str "c"; showA := true |} ],
         (λ n, draws_blank (S (S (S n)))).
  split; [vm_compute; reflexivity|].
  split; [reflexivity|].
  by_computation.
Qed.

(** ** The configuration loader *)

Section Loader_properties.
Context `{Coercions}.
Variables defaultIntervalMs defaultFadeMs : number.


(** On an object the handler converts the two timing values in turn and
    then keeps [images] when it is an array and the timing of each pair of
    keys. *)
Lemma onData_object (props : list (string * json)) :
  Loader.onData defaultIntervalMs defaultFadeMs (JObj props) =
  (interval ← Number (nullish (lookupProp props "INTERVAL_MS")
                        (lookupProp props "intervalMs"));
   fade ← Number (nullish (lookupProp props "FADE_MS")
                    (lookupProp props "fadeMs"));
   Some {| Loader.images :=
             if Array_isArray (lookupProp props "images")
             then lookupProp props "images" else JArr [];
           Loader.intervalMs := timing interval defaultIntervalMs;
           Loader.fadeMs := timing fade defaultFadeMs |}).
Proof. reflexivity. Qed.



(** C10 (the upper-case key comes first): on an object, a value of
    [INTERVAL_MS] other than [null] or [undefined] alone decides the
    interval among the two interval keys: the result is that value when it
    and the fade value convert and it is finite and positive, and the
    default otherwise, whatever [intervalMs] holds; [intervalMs] is read
    only when [INTERVAL_MS] is [null] or absent. The same holds of
    [FADE_MS] and [fadeMs]. *)
Theorem C10_upper_case_key_first (props : list (string * json)) :
  let data := JObj props in
  let r := Loader.load defaultIntervalMs defaultFadeMs (Some data) in
  let nullOrAbsent (v : json) : Prop := v = JNull ∨ v = JUndefined in
  let intervalValue :=
    nullish (getProp data "INTERVAL_MS") (getProp data "intervalMs") in
  let fadeValue :=
    nullish (getProp data "FADE_MS") (getProp data "fadeMs") in
  (¬ nullOrAbsent (getProp data "INTERVAL_MS") →
     Loader.intervalMs r =
       match Number (getProp data "INTERVAL_MS"), Number fadeValue with
       | Some x, Some _ => timing x defaultIntervalMs
       | _, _ => defaultIntervalMs
       end ∧
     ((∀ x, Number (getProp data "INTERVAL_MS") = Some x →
            Number_isFinite x && gt0 x = false) →
      Loader.intervalMs r = defaultIntervalMs)) ∧
  (nullOrAbsent (getProp data "INTERVAL_MS") →
     Loader.intervalMs r =
       match Number (getProp data "intervalMs"), Number fadeValue with
       | Some x, Some _ => timing x defaultIntervalMs
       | _, _ => defaultIntervalMs
       end) ∧
  (¬ nullOrAbsent (getProp data "FADE_MS") →
     Loader.fadeMs r =
       match Number intervalValue, Number (getProp data "FADE_MS") with
       | Some _, Some x => timing x defaultFadeMs
       | _, _ => defaultFadeMs
       end ∧
     ((∀ x, Number (getProp data "FADE_MS") = Some x →
            Number_isFinite x && gt0 x = false) →
      Loader.fadeMs r = defaultFadeMs)) ∧
  (nullOrAbsent (getProp data "FADE_MS") →
     Loader.fadeMs r =
       match Number intervalValue, Number (getProp data "fadeMs") with
       | Some _, Some x => timing x defaultFadeMs
       | _, _ => defaultFadeMs
       end).
Proof.
  intros data r nullOrAbsent intervalValue fadeValue.
  unfold r, data, intervalValue, fadeValue, nullOrAbsent.
  simpl Loader.load. rewrite onData_object. simpl getProp.
  assert (Hup : ∀ v w, ¬ (v = JNull ∨ v = JUndefined) → nullish v w = v).
  { intros v w Hv. destruct v; simpl; tauto. }
  assert (Hlow : ∀ v w, v = JNull ∨ v = JUndefined → nullish v w = w).
  { by intros v w [-> | ->]. }
  split; [|split; [|split]].
  - intros Hv. rewrite (Hup _ _ Hv).
    destruct (Number (lookupProp props "INTERVAL_MS")) as [x|] eqn:Hx;
      simpl.
    + destruct (Number (nullish (lookupProp props "FADE_MS")
                          (lookupProp props "fadeMs"))) as [y|]; simpl.
      * split; [done|]. intros Hbad. unfold timing. by rewrite (Hbad x).
      * done.
    + done.
  - intros Hv. rewrite (Hlow _ _ Hv).
    destruct (Number (lookupProp props "intervalMs")) as [x|]; simpl; [|done].
    by destruct (Number (nullish (lookupProp props "FADE_MS")
                           (lookupProp props "fadeMs"))) as [y|].
  - intros Hv. rewrite (Hup _ (lookupProp props "fadeMs") Hv).
    destruct (Number (nullish (lookupProp props "INTERVAL_MS")
                        (lookupProp props "intervalMs"))) as [y|]; simpl.
    + destruct (Number (lookupProp props "FADE_MS")) as [x|] eqn:Hx; simpl.
      * split; [done|]. intros Hbad. unfold timing. by rewrite (Hbad x).
      * done.
    + split; [done|]. done.
  - intros Hv. rewrite (Hlow _ (lookupProp props "fadeMs") Hv).
    destruct (Number (nullish (lookupProp props "INTERVAL_MS")
                        (lookupProp props "intervalMs"))) as [y|]; simpl;
      [|done].
    by destruct (Number (lookupProp props "fadeMs")) as [x|].
Qed.

End Loader_properties.


(** C10 at a configuration whose [INTERVAL_MS] is 0 and whose [intervalMs]
    is 7000: the interval is the default 5000, not 7000. *)
Lemma C10_upper_case_key_first_witness :
  Loader.intervalMs
    (Loader.load (H := no_text_coercions) (Finite 5000) (Finite 3000)
       (Some config_zero_interval))
  = Finite 5000.
Proof.
  destruct (C10_upper_case_key_first (H := no_text_coercions)
              (Finite 5000) (Finite 3000)
              [ ("images", JArr [JStr "x.png"; JStr "y.png"]);
                ("INTERVAL_MS", JNum (Finite 0));
                ("intervalMs", JNum (Finite 7000)) ])
    as (Hupper & _).
  apply Hupper.
  - intros [Hnull|Hundef]; discriminate.
  - intros x [= <-]. reflexivity.
Defined.

(** A timing value that does not convert: [Number(...)] raises at line
    232, no setter has run, and the [catch] handler stores the empty array
    and both defaults, although [images] and [INTERVAL_MS] are well
    formed. *)
Example load_unconvertible_fade :
  Loader.load (H := no_text_coercions) (Finite 5000) (Finite 3000)
    (Some config_unconvertible_fade)
  = Loader.onError (Finite 5000) (Finite 3000).
Proof. reflexivity. Qed.

(** ** The interval lifecycle *)

Lemma stop_no_timers (st : Component.state) :
  timers_tracked st → Component.activeTimers (Component.stop st) = ∅.
Proof.
  intros Hinv. apply map_empty. intros id.
  unfold Component.stop, Component.clearCurrent, Component.clearInterval.
  destruct (Component.hasCleanup st) eqn:Hclean.
  - destruct (Component.timerRef st) as [cur|] eqn:Href; simpl.
    + destruct (decide (cur = id)) as [->|Hne].
      * apply lookup_delete_eq.
      * rewrite lookup_delete_ne by done.
        destruct (Component.activeTimers st !! id) as [t|] eqn:Ht; [|done].
        destruct (Hinv id t Ht) as [Hcur _]. congruence.
    + destruct (Component.activeTimers st !! id) as [t|] eqn:Ht; [|done].
      destruct (Hinv id t Ht) as [Hcur _]. congruence.
  - destruct (Component.activeTimers st !! id) as [t|] eqn:Ht; [|done].
    destruct (Hinv id t Ht) as [_ Hc]. congruence.
Qed.

Lemma stop_cards (st : Component.state) :
  Component.cards (Component.stop st) = Component.cards st.
Proof.
  unfold Component.stop, Component.clearCurrent.
  destruct (Component.hasCleanup st); [|done].
  by destruct (Component.timerRef st).
Qed.

Lemma stop_images (st : Component.state) :
  Component.images (Component.stop st) = Component.images st.
Proof.
  unfold Component.stop, Component.clearCurrent.
  destruct (Component.hasCleanup st); [|done].
  by destruct (Component.timerRef st).
Qed.

(** Run from a state without an active interval, the effect leaves at
    most the interval it creates, for the current non-empty [images]. *)
Lemma intervalEffect_invariant (id : positive) (st : Component.state) :
  Component.activeTimers st = ∅ →
  timers_tracked (Component.intervalEffect id st) ∧
  timers_current (Component.intervalEffect id st).
Proof.
  intros Hempty. unfold Component.intervalEffect.
  case_decide as Hlen.
  { split; intros i t; simpl; rewrite Hempty, lookup_empty; done. }
  assert (Hcur : Component.activeTimers (Component.clearCurrent st) = ∅).
  { unfold Component.clearCurrent, Component.clearInterval.
    destruct (Component.timerRef st); simpl; [|done].
    rewrite Hempty. apply delete_empty. }
  assert (Himg : Component.images (Component.clearCurrent st)
                 = Component.images st).
  { unfold Component.clearCurrent. by destruct (Component.timerRef st). }
  split; intros i t; simpl; rewrite Hcur, Himg.
  - destruct (decide (id = i)) as [->|Hne].
    + by rewrite lookup_insert_eq.
    + rewrite lookup_insert_ne, lookup_empty; done.
  - destruct (decide (id = i)) as [->|Hne].
    + rewrite lookup_insert_eq. intros [= <-]. simpl. split; [done|].
      intros Hnil. by rewrite Hnil in Hlen.
    + rewrite lookup_insert_ne, lookup_empty; done.
Qed.

(** Both invariants hold in every state of a mounted component. *)
Lemma reachable_invariant (defaultIntervalMs : number) (st : Component.state) :
  Component.reachable defaultIntervalMs st →
  timers_tracked st ∧ timers_current st.
Proof.
  induction 1 as [|st imgs id g st' g' _ [IHt _] Hstep
                  |st ms id _ [IHt IHc]
                  |st fuel id g st' g' _ [IHt IHc] Hstep].
  - split; intros i t; simpl; by rewrite lookup_empty.
  - unfold Component.setImages in Hstep.
    apply Rand_bind_Some in Hstep as (cs & g1 & _ & [= <- _]).
    apply intervalEffect_invariant. simpl.
    by apply stop_no_timers.
  - unfold Component.setIntervalMs.
    destruct (Object_is ms (Component.intervalMs st)); [done|].
    apply intervalEffect_invariant. by apply stop_no_timers.
  - unfold Component.fire in Hstep.
    destruct (Component.activeTimers st !! id) as [t|].
    + apply Rand_bind_Some in Hstep as (cs & g1 & _ & [= <- _]). done.
    + by injection Hstep as <- _.
Qed.

(** Without an active interval a firing of the timer mechanism runs
    nothing. *)
Lemma fire_no_timers (fuel : nat) (id : positive) (st : Component.state) g :
  Component.activeTimers st = ∅ →
  Component.fire fuel id st g = Some (st, g).
Proof.
  intros Hempty. unfold Component.fire. by rewrite Hempty, lookup_empty.
Qed.

Lemma fireAll_no_timers (firings : list (nat * positive))
    (st : Component.state) g :
  Component.activeTimers st = ∅ →
  Component.fireAll firings st g = Some (st, g).
Proof.
  intros Hempty. induction firings as [|[fuel id] firings IH]; [done|].
  simpl. apply Rand_bind_Some. exists st, g.
  split; [by apply fire_no_timers|done].
Qed.

(** C9 (teardown safety): once the cleanup of the interval effect has run
    in a state of the mounted component, no interval of the component is
    active, so every later firing of the timer mechanism, for any handle
    and so also for one that was queued before, returns and leaves the
    state as the cleanup left it; the cards are those the component had
    when the cleanup ran. *)
Theorem C9_no_tick_after_stop (defaultIntervalMs : number)
    (st : Component.state) (firings : list (nat * positive))
    (g : random_source) :
  Component.reachable defaultIntervalMs st →
  Component.activeTimers (Component.stop st) = ∅ ∧
  Component.fireAll firings (Component.stop st) g
    = Some (Component.stop st, g) ∧
  Component.cards (Component.stop st) = Component.cards st.
Proof.
  intros Hreach.
  destruct (reachable_invariant _ _ Hreach) as [Htracked _].
  pose proof (stop_no_timers st Htracked) as Hempty.
  split; [done|]. split; [by apply fireAll_no_timers|apply stop_cards].
Qed.

Lemma reachable_state_ab :
  Component.reachable (Finite 5000) state_ab.
Proof.
  eapply (Component.reach_setImages _ (Component.mount (Finite 5000))
            [Str "a"; Str "b"] 1%positive draws_blank state_ab
            (λ n, draws_blank (S (S (S n))))).
  - constructor.
  - vm_compute. reflexivity.
Qed.

(** The hypothesis of C9 holds of the component with the pool a, b and the
    active interval 1; after the cleanup two firings of handle 1 change
    nothing. *)
Lemma C9_no_tick_after_stop_witness :
  Component.reachable (Finite 5000) state_ab ∧
  Component.activeTimers (Component.stop state_ab) = ∅ ∧
  Component.fireAll [(5, 1%positive); (5, 1%positive)]
    (Component.stop state_ab) draws_blank
    = Some (Component.stop state_ab, draws_blank) ∧
  Component.cards (Component.stop state_ab) = Component.cards state_ab.
Proof.
  split; [exact reachable_state_ab|].
  exact (C9_no_tick_after_stop (Finite 5000) state_ab
           [(5, 1%positive); (5, 1%positive)] draws_blank reachable_state_ab).
Defined.

(** Before the cleanup the interval of [state_ab] does rotate a card: the
    firing of handle 1 under [draws_blank] makes card 0 show b. *)
Example fire_before_stop :
  Component.cards <$>
    (fst <$> Component.fire 5 1%positive state_ab draws_blank)
  = Some [ {| a := Str "a"; b := Str "b"; showA := false |};
           {| a := Str "a"; b := Str "a"; showA := true |};
           {| a := Str "b"; b := Str "b"; showA := true |} ].
Proof. vm_compute. reflexivity. Qed.

(** * Further properties of the helpers, the callback and the component *)

(** ** The random index *)

(** The draw [i / n]. *)
Lemma draw_fraction_range (i m : nat) :
  i < S m →
  Qle_bool 0 (Z.of_nat i # Pos.of_succ_nat m) &&
  negb (Qle_bool 1 (Z.of_nat i # Pos.of_succ_nat m)) = true.
Proof.
  intros Hi. apply andb_true_iff. split.
  - apply Qle_bool_iff. unfold Qle. simpl. lia.
  - apply negb_true_iff. apply not_true_is_false. intros Hle.
    apply Qle_bool_iff in Hle. unfold Qle in Hle. simpl in Hle. lia.
Qed.

(** Every index below [n] is selected by some draw. *)
Lemma Math_floor_mul_onto (n i : nat) :
  i < n → ∃ r, Math_floor_mul r n = i.
Proof.
  intros Hi. destruct n as [|m]; [lia|].
  exists (UnitDraw (Z.of_nat i # Pos.of_succ_nat m) (draw_fraction_range i m Hi)).
  unfold Math_floor_mul, Qfloor, Qmult, inject_Z. simpl draw_value.
  cbn [Qnum Qden].
  rewrite Pos.mul_1_r, Zpos_P_of_succ_nat, <- Nat2Z.inj_succ.
  rewrite Z.div_mul by lia. apply Nat2Z.id.
Qed.

(** ** [pickRandomExcluding] *)

(** A candidate other than [exclude] leaves the loop at once. *)
Lemma loop_accepts fuel (list : list value) exclude candidate g :
  candidate ≠ exclude →
  pickRandomExcluding_loop fuel list exclude candidate g = Some (candidate, g).
Proof. intros Hne. destruct fuel; simpl; by rewrite decide_False. Qed.

Lemma loop_first_accepted fuel (list : list value) exclude g :
  list ≠ [] →
  (pickRandomExcluding_loop fuel list exclude exclude g = None ∧
   ∀ k, k < fuel → drawnEntry list g k = exclude)
  ∨
  (∃ k g',
     k < fuel ∧
     (∀ j, j < k → drawnEntry list g j = exclude) ∧
     drawnEntry list g k ≠ exclude ∧
     drawnEntry list g k ∈ list ∧
     pickRandomExcluding_loop fuel list exclude exclude g
       = Some (drawnEntry list g k, g') ∧
     ∀ n, g' n = g (S k + n)).
Proof.
  intros Hne. revert g. induction fuel as [|fuel IH]; intros g.
  { left. simpl. rewrite decide_True by done. split; [done|]. intros k; lia. }
  simpl. rewrite decide_True by done.
  unfold mbind, Rand_bind, Math_random.
  fold (drawnEntry list g 0).
  destruct (decide (drawnEntry list g 0 = exclude)) as [Heq|Hacc].
  - rewrite Heq.
    destruct (IH (λ n, g (S n))) as [[Hnone Hall]|(k & g' & Hk & Hrej & Hacc & Hin & Hrun & Hg')].
    + left. split; [done|]. intros [|k] Hk; [done|]. apply (Hall k). lia.
    + right. exists (S k), g'. split; [lia|].
      split. { intros [|j] Hj; [done|]. apply (Hrej j). lia. }
      repeat split; done.
  - right. exists 0, (λ n, g (S n)). split; [lia|].
    split; [intros j; lia|]. split; [done|].
    split; [by apply drawn_elem|].
    split; [by apply loop_accepts|done].
Qed.

(** X2: on an array of two or more entries [pickRandomExcluding] is a
    rejection loop over the draws: it returns the entry selected by the
    first draw that does not land on [exclude], an entry of the array other
    than [exclude], having consumed the draws up to that one; it is still
    looping after [fuel] draws exactly when all of them landed on
    [exclude]. *)
Theorem pickRandomExcluding_first_accepted (fuel : nat) (list : list value)
    (exclude : value) (g : random_source) :
  2 ≤ length list →
  (pickRandomExcluding fuel list exclude g = None ∧
   ∀ k, k < fuel → drawnEntry list g k = exclude)
  ∨
  (∃ k g',
     k < fuel ∧
     (∀ j, j < k → drawnEntry list g j = exclude) ∧
     drawnEntry list g k ≠ exclude ∧
     drawnEntry list g k ∈ list ∧
     pickRandomExcluding fuel list exclude g
       = Some (drawnEntry list g k, g') ∧
     ∀ n, g' n = g (S k + n)).
Proof.
  intros Hlen. unfold pickRandomExcluding.
  rewrite !decide_False by lia.
  apply loop_first_accepted. destruct list; [simpl in Hlen; lia|done].
Qed.

Lemma pickRandomExcluding_first_accepted_witness :
  2 ≤ length [Str "a"; Str "b"; Str "c"] ∧
  ((pickRandomExcluding 3 [Str "a"; Str "b"; Str "c"] (Str "a") draws_blank
      = None ∧
    ∀ k, k < 3 →
      drawnEntry [Str "a"; Str "b"; Str "c"] draws_blank k = Str "a")
   ∨
   (∃ k g',
      k < 3 ∧
      (∀ j, j < k →
         drawnEntry [Str "a"; Str "b"; Str "c"] draws_blank j = Str "a") ∧
      drawnEntry [Str "a"; Str "b"; Str "c"] draws_blank k ≠ Str "a" ∧
      drawnEntry [Str "a"; Str "b"; Str "c"] draws_blank k
        ∈ [Str "a"; Str "b"; Str "c"] ∧
      pickRandomExcluding 3 [Str "a"; Str "b"; Str "c"] (Str "a") draws_blank
        = Some (drawnEntry [Str "a"; Str "b"; Str "c"] draws_blank k, g') ∧
      ∀ n, g' n = draws_blank (S k + n))).
Proof.
  split; [simpl; lia|].
  apply (pickRandomExcluding_first_accepted 3 [Str "a"; Str "b"; Str "c"]
           (Str "a") draws_blank).
  simpl. lia.
Defined.

(** ** [pickRandomNotIn] and the selection *)

(** With a candidate left, [pickRandomNotIn] consumes one draw and returns
    the candidate it selects. *)
Lemma pickRandomNotIn_draw (list : list value) (excludeSet : gset value) g :
  filter (λ x, x ∉ excludeSet) list ≠ [] →
  pickRandomNotIn list excludeSet g
  = Some (drawnEntry (filter (λ x, x ∉ excludeSet) list) g 0, λ n, g (S n)).
Proof.
  intros Hne. unfold pickRandomNotIn.
  destruct (decide (length list = 0)) as [Hl|Hl].
  { destruct list; [done|simpl in Hl; lia]. }
  rewrite decide_False; [done|].
  intros Hlen. by apply nil_length_inv in Hlen.
Qed.

(** X3: [pickRandomNotIn] always returns. When every entry of the array is
    in the set it returns [null] and draws nothing; otherwise it consumes
    one draw and returns the candidate that draw selects, an entry of the
    array that is not in the set. *)
Theorem pickRandomNotIn_spec (list : list value) (excludeSet : gset value)
    (g : random_source) :
  (filter (λ x, x ∉ excludeSet) list = [] ∧
   pickRandomNotIn list excludeSet g = Some (Null, g))
  ∨
  (filter (λ x, x ∉ excludeSet) list ≠ [] ∧
   ∃ v,
     pickRandomNotIn list excludeSet g = Some (v, λ n, g (S n)) ∧
     v = drawnEntry (filter (λ x, x ∉ excludeSet) list) g 0 ∧
     v ∈ list ∧ (v ∉ excludeSet)).
Proof.
  destruct (decide (filter (λ x, x ∉ excludeSet) list = [])) as [Hnil|Hne].
  { left. split; [done|]. by apply pickRandomNotIn_none. }
  right. split; [done|].
  exists (drawnEntry (filter (λ x, x ∉ excludeSet) list) g 0).
  pose proof (drawn_elem _ (g 0) Hne) as Hin.
  apply list_elem_of_filter in Hin as [Hout Hin].
  split; [by apply pickRandomNotIn_draw|done].
Qed.

(** X4: when every entry of the pool is truthy and some entry is visible
    nowhere, the selection returns after a single draw, without entering
    the loop, an entry of the pool that is not in the visible set. *)
Theorem selectNext_prefers_unseen (fuel : nat) (images : list value)
    (visibleSet : gset value) (currentVisible : value) (g : random_source) :
  Forall (λ v, truthy v = true) images →
  filter (λ x, x ∉ visibleSet) images ≠ [] →
  ∃ v,
    selectNext fuel images visibleSet currentVisible g
      = Some (v, λ n, g (S n)) ∧
    v ∈ images ∧ (v ∉ visibleSet).
Proof.
  intros Htruthy Hcand.
  pose proof (pickRandomNotIn_draw images visibleSet g Hcand) as Hpick.
  pose proof (drawn_elem _ (g 0) Hcand) as Hin.
  apply list_elem_of_filter in Hin as [Hout Hin].
  eexists. split; [|done].
  apply selectNext_first_choice; [done|].
  rewrite Forall_forall in Htruthy. by apply Htruthy.
Qed.

Lemma selectNext_prefers_unseen_witness :
  Forall (λ v, truthy v = true) [Str "a"; Str "b"; Str "c"] ∧
  filter (λ x, x ∉ ({[Str "a"; Str "b"]} : gset value))
    [Str "a"; Str "b"; Str "c"] ≠ [] ∧
  ∃ v,
    selectNext 0 [Str "a"; Str "b"; Str "c"] {[Str "a"; Str "b"]}
      (Str "a") draws_blank
      = Some (v, λ n, draws_blank (S n)) ∧
    v ∈ [Str "a"; Str "b"; Str "c"] ∧
    (v ∉ ({[Str "a"; Str "b"]} : gset value)).
Proof.
  assert (H1 : Forall (λ v, truthy v = true) [Str "a"; Str "b"; Str "c"])
    by (repeat constructor).
  assert (H2 : filter (λ x, x ∉ ({[Str "a"; Str "b"]} : gset value))
                 [Str "a"; Str "b"; Str "c"] ≠ [])
    by (vm_compute; discriminate).
  split; [exact H1|]. split; [exact H2|].
  exact (selectNext_prefers_unseen 0 _ _ (Str "a") draws_blank H1 H2).
Defined.

(** X5: when the pool is not empty, all its entries are truthy and all of
    them are visible, the selection is [pickRandomExcluding] on the pool
    and the target card's image: same result, same draws, and the same
    behaviour of the loop. *)
Theorem selectNext_all_visible (fuel : nat) (images : list value)
    (visibleSet : gset value) (currentVisible : value) (g : random_source) :
  images ≠ [] →
  Forall (λ v, truthy v = true) images →
  filter (λ x, x ∉ visibleSet) images = [] →
  selectNext fuel images visibleSet currentVisible g
  = pickRandomExcluding fuel images currentVisible g.
Proof.
  intros Hne Htruthy Hnil.
  unfold selectNext. unfold mbind at 1. unfold Rand_bind at 1.
  rewrite (pickRandomNotIn_none _ _ _ Hnil). simpl.
  unfold mbind, Rand_bind.
  destruct (pickRandomExcluding fuel images currentVisible g)
    as [[v g']|] eqn:Hrun; [|done].
  assert (Hin : v ∈ images).
  { revert Hrun. unfold pickRandomExcluding.
    case_decide as Hl0.
    { destruct images; [done|simpl in Hl0; lia]. }
    case_decide as Hl1.
    - intros [= <- _]. apply at_index_elem. lia.
    - intros Hloop. apply loop_returns in Hloop as [Hv [->|Hin]]; [done..|].
      by intros ->. }
  rewrite Forall_forall in Htruthy. unfold mret, Rand_ret.
  by rewrite (Htruthy v Hin).
Qed.

Lemma selectNext_all_visible_witness :
  [Str "a"; Str "b"] ≠ [] ∧
  Forall (λ v, truthy v = true) [Str "a"; Str "b"] ∧
  filter (λ x, x ∉ ({[Str "a"; Str "b"]} : gset value)) [Str "a"; Str "b"]
    = [] ∧
  selectNext 3 [Str "a"; Str "b"] {[Str "a"; Str "b"]} (Str "a") draws_blank
  = pickRandomExcluding 3 [Str "a"; Str "b"] (Str "a") draws_blank.
Proof.
  assert (H1 : [Str "a"; Str "b"] ≠ []) by discriminate.
  assert (H2 : Forall (λ v, truthy v = true) [Str "a"; Str "b"])
    by (repeat constructor).
  assert (H3 : filter (λ x, x ∉ ({[Str "a"; Str "b"]} : gset value))
                 [Str "a"; Str "b"] = [])
    by (vm_compute; reflexivity).
  split; [exact H1|]. split; [exact H2|]. split; [exact H3|].
  exact (selectNext_all_visible 3 _ _ (Str "a") draws_blank H1 H2 H3).
Defined.

(** ** The interval callback on its own *)

(** A truthy image shown by a card is in the visible set. *)
Lemma visible_in_set (cards : list card) (i : nat) (c : card) :
  cards !! i = Some c →
  truthy (visibleImage c) = true →
  visibleImage c ∈ (list_to_set (visibleList cards) : gset value).
Proof.
  intros Hc Htruthy. apply elem_of_list_to_set. unfold visibleList.
  apply list_elem_of_filter. split; [done|].
  apply list_elem_of_fmap. exists c. split; [done|].
  by eapply list_elem_of_lookup_2.
Qed.

(** On a pool of two or more truthy entries a returned selection is an
    entry of the pool other than the target card's image, provided that
    image is in the visible set whenever it is truthy. *)
Lemma selectNext_differs fuel (images : list value) (visibleSet : gset value)
    currentVisible g v g' :
  Forall (λ x, truthy x = true) images →
  2 ≤ length images →
  (truthy currentVisible = true → currentVisible ∈ visibleSet) →
  selectNext fuel images visibleSet currentVisible g = Some (v, g') →
  v ∈ images ∧ v ≠ currentVisible.
Proof.
  intros Htruthy Hlen Hcur. rewrite Forall_forall in Htruthy.
  unfold selectNext.
  intros (v0 & g0 & Hpick & Hrest)%Rand_bind_Some.
  apply pickRandomNotIn_result in Hpick as [(-> & -> & Hnil)|(Hin & Hout & _)].
  - simpl in Hrest.
    apply Rand_bind_Some in Hrest as (v1 & g1 & Hsecond & Hlast).
    unfold pickRandomExcluding in Hsecond.
    rewrite !decide_False in Hsecond by lia.
    apply loop_returns in Hsecond as [Hv [->|Hin]]; [done| |].
    2:{ intros ->. simpl in Hlen. lia. }
    injection Hlast as <- <-. by rewrite (Htruthy v1 Hin).
  - rewrite (Htruthy v0 Hin) in Hrest. simpl in Hrest.
    apply Rand_bind_Some in Hrest as (v1 & g1 & [= <- <-] & Hlast).
    injection Hlast as <- <-. rewrite (Htruthy v0 Hin).
    split; [done|]. intros ->. apply Hout, Hcur. by apply Htruthy.
Qed.

(** X6: on a pool of two or more truthy entries every tick that returns
    makes the target card show an entry of the pool other than the image it
    showed before; the only other outcome is that the rejection loop has
    not ended yet. *)
Theorem tick_changes_target (fuel : nat) (images : list value)
    (cards : list card) (g : random_source) :
  Forall (λ x, truthy x = true) images →
  2 ≤ length images →
  length cards = 3 →
  ∃ currentCard,
    cards !! Math_floor_mul (g 0) 3 = Some currentCard ∧
    ((∃ cards' g' updated,
        tick fuel images cards g = Some (cards', g') ∧
        cards' !! Math_floor_mul (g 0) 3 = Some updated ∧
        visibleImage updated ∈ images ∧
        visibleImage updated ≠ visibleImage currentCard)
     ∨ tick fuel images cards g = None).
Proof.
  intros Htruthy Hlen Hcards.
  destruct (target_in_range cards (g 0) Hcards) as [c Hc].
  exists c. split; [done|].
  rewrite (tick_unfold _ _ _ _ _ Hc).
  destruct (selectNext fuel images (list_to_set (visibleList cards))
              (visibleImage c) (λ n, g (S n))) as [[v g']|] eqn:Hsel;
    [left|by right].
  apply selectNext_differs in Hsel as [Hin Hne];
    [|done|done|by apply (visible_in_set cards (Math_floor_mul (g 0) 3) c)].
  eexists _, g', (updatedCard c v). split; [done|].
  split. { apply list_lookup_insert_eq. by eapply lookup_lt_Some. }
  by rewrite visibleImage_updatedCard.
Qed.

Lemma tick_changes_target_witness :
  Forall (λ x, truthy x = true) [Str "a"; Str "b"] ∧
  2 ≤ length [Str "a"; Str "b"] ∧
  length cards_abc = 3 ∧
  ∃ currentCard,
    cards_abc !! Math_floor_mul (draws_blank 0) 3 = Some currentCard ∧
    ((∃ cards' g' updated,
        tick 3 [Str "a"; Str "b"] cards_abc draws_blank = Some (cards', g') ∧
        cards' !! Math_floor_mul (draws_blank 0) 3 = Some updated ∧
        visibleImage updated ∈ [Str "a"; Str "b"] ∧
        visibleImage updated ≠ visibleImage currentCard)
     ∨ tick 3 [Str "a"; Str "b"] cards_abc draws_blank = None).
Proof.
  assert (H1 : Forall (λ x, truthy x = true) [Str "a"; Str "b"])
    by (repeat constructor).
  assert (H2 : 2 ≤ length [Str "a"; Str "b"]) by (simpl; lia).
  assert (H3 : length cards_abc = 3) by reflexivity.
  split; [exact H1|]. split; [exact H2|]. split; [exact H3|].
  exact (tick_changes_target 3 _ cards_abc draws_blank H1 H2 H3).
Defined.

(** X7: the callback is not guarded against an empty pool. Run on one it
    returns after its single draw, and the target card copies the image it
    shows into its hidden layer and flips [showA]; so every card shows the
    image it showed before, though the state of the target card has
    changed. *)
Theorem tick_on_empty_pool (fuel : nat) (cards : list card)
    (g : random_source) :
  ∃ cards',
    tick fuel [] cards g = Some (cards', λ n, g (S n)) ∧
    length cards' = length cards ∧
    visibleImage <$> cards' = visibleImage <$> cards ∧
    ∀ c, cards !! Math_floor_mul (g 0) 3 = Some c →
      cards' !! Math_floor_mul (g 0) 3
        = Some (updatedCard c (visibleImage c)) ∧
      showA (updatedCard c (visibleImage c)) = negb (showA c).
Proof.
  destruct (cards !! Math_floor_mul (g 0) 3) as [c|] eqn:Hc.
  - rewrite (tick_unfold _ _ _ _ _ Hc).
    assert (Hsel : selectNext fuel [] (list_to_set (visibleList cards))
                     (visibleImage c) (λ n, g (S n))
                   = Some (visibleImage c, λ n, g (S n))) by done.
    rewrite Hsel. eexists. split; [done|].
    split; [by rewrite length_insert|]. split.
    + rewrite list_fmap_insert, visibleImage_updatedCard.
      apply list_insert_id. by rewrite list_lookup_fmap, Hc.
    + intros ? [= <-]. split; [|apply showA_updatedCard].
      apply list_lookup_insert_eq. by eapply lookup_lt_Some.
  - exists cards. split; [|done].
    unfold tick, mbind, Rand_bind, Math_random. by rewrite Hc.
Qed.

(** ** The initialising effect *)

Lemma initializeCards_spec (images : list value) (cards : list card) g :
  images ≠ [] →
  ∃ cards' g',
    initializeCards images cards g = Some (cards', g') ∧
    length cards' = length cards ∧
    (∀ i, i < length cards →
       cards' !! i = Some {| a := drawnEntry images g i;
                             b := drawnEntry images g i;
                             showA := true |} ∧
       drawnEntry images g i ∈ images) ∧
    ∀ n, g' n = g (length cards + n).
Proof.
  intros Hne. revert g. induction cards as [|c cards IH]; intros g.
  { exists [], g. simpl. split; [done|]. split; [done|].
    split; [intros i; lia|done]. }
  destruct (IH (λ n, g (S n))) as (rest & g' & Hrun & Hlen & Hat & Hg').
  exists ({| a := drawnEntry images g 0; b := drawnEntry images g 0;
             showA := true |} :: rest), g'.
  split.
  { simpl. unfold mbind, Rand_bind, Math_random.
    unfold mbind, Rand_bind in Hrun. by rewrite Hrun. }
  split; [simpl; by rewrite Hlen|]. split; [|done].
  intros [|i] Hi.
  - split; [done|]. by apply drawn_elem.
  - simpl in Hi. apply (Hat i). lia.
Qed.

(** X8: on a non-empty pool the initialising effect gives card [i] the
    entry selected by draw [i], in both layers and with [showA] set; it
    keeps the number of cards and consumes one draw a card. The draws are
    independent: nothing keeps two cards from receiving the same image. *)
Theorem initialize_spec (images : list value) (cards : list card)
    (g : random_source) :
  images ≠ [] →
  ∃ cards' g',
    initialize images cards g = Some (cards', g') ∧
    length cards' = length cards ∧
    (∀ i, i < length cards →
       cards' !! i = Some {| a := drawnEntry images g i;
                             b := drawnEntry images g i;
                             showA := true |} ∧
       drawnEntry images g i ∈ images) ∧
    ∀ n, g' n = g (length cards + n).
Proof.
  intros Hne. unfold initialize.
  rewrite decide_False; [by apply initializeCards_spec|].
  destruct images; [done|simpl; lia].
Qed.

Lemma initialize_spec_witness :
  [Str "a"; Str "b"] ≠ [] ∧
  ∃ cards' g',
    initialize [Str "a"; Str "b"] initialCards draws_blank
      = Some (cards', g') ∧
    length cards' = length initialCards ∧
    (∀ i, i < length initialCards →
       cards' !! i
         = Some {| a := drawnEntry [Str "a"; Str "b"] draws_blank i;
                   b := drawnEntry [Str "a"; Str "b"] draws_blank i;
                   showA := true |} ∧
       drawnEntry [Str "a"; Str "b"] draws_blank i ∈ [Str "a"; Str "b"]) ∧
    ∀ n, g' n = draws_blank (length initialCards + n).
Proof.
  split; [discriminate|].
  apply (initialize_spec [Str "a"; Str "b"] initialCards draws_blank).
  discriminate.
Defined.

(** ** The number of distinct visible images *)

(** Replacing the image a card shows by one that was visible nowhere does
    not lower the number of distinct visible images. *)
Lemma size_visible_insert (vis : list value) (t : nat) (cur v : value) :
  vis !! t = Some cur →
  truthy v = true →
  v ∉ (list_to_set (filter (λ x, truthy x = true) vis) : gset value) →
  size (list_to_set (filter (λ x, truthy x = true) vis) : gset value)
  ≤ size (list_to_set (filter (λ x, truthy x = true) (<[t := v]> vis))
            : gset value).
Proof.
  intros Ht Hv Hout.
  set (vs := list_to_set (filter (λ x, truthy x = true) vis) : gset value) in *.
  set (vs' := list_to_set (filter (λ x, truthy x = true) (<[t := v]> vis))
              : gset value).
  assert (Hsub : (vs ∖ {[cur]}) ∪ {[v]} ⊆ vs').
  { intros x Hx. apply elem_of_union in Hx as [Hx|Hx].
    all: unfold vs'; apply elem_of_list_to_set, list_elem_of_filter.
    - apply elem_of_difference in Hx as [Hx Hne].
      apply not_elem_of_singleton in Hne.
      unfold vs in Hx.
      apply elem_of_list_to_set, list_elem_of_filter in Hx as [Hx Hin].
      split; [done|].
      apply list_elem_of_lookup in Hin as [j Hj].
      apply list_elem_of_lookup. exists j.
      rewrite list_lookup_insert_ne; [done|]. intros ->. congruence.
    - apply elem_of_singleton in Hx as ->.
      split; [done|]. apply list_elem_of_lookup. exists t.
      apply list_lookup_insert_eq. by eapply lookup_lt_Some. }
  apply subseteq_size in Hsub.
  rewrite size_union in Hsub.
  2:{ apply disjoint_singleton_r. by intros [Hv' _]%elem_of_difference. }
  rewrite size_singleton in Hsub.
  assert (Hle : size vs ≤ size (vs ∖ {[cur]}) + 1).
  { transitivity (size ((vs ∖ {[cur]}) ∪ {[cur]})).
    - apply subseteq_size. intros x Hx.
      destruct (decide (x = cur)) as [->|Hne].
      + by apply elem_of_union_r, elem_of_singleton.
      + apply elem_of_union_l, elem_of_difference. split; [done|].
        by apply not_elem_of_singleton.
    - rewrite size_union_alt.
      pose proof (subseteq_size ({[cur]} ∖ (vs ∖ {[cur]})) ({[cur]} : gset value)
                    ltac:(by apply subseteq_difference_l)) as Hs.
      rewrite size_singleton in Hs. lia. }
  lia.
Qed.

(** X9: when every entry of the pool is truthy and some entry is visible
    nowhere, a tick returns after at most two draws and the number of
    distinct visible images does not go down: a card that duplicated
    another gains an image of its own, any other card trades its image for
    a new one. *)
Theorem tick_distinct_visible_monotone (fuel : nat) (images : list value)
    (cards : list card) (g : random_source) :
  Forall (λ x, truthy x = true) images →
  filter (λ x, x ∉ (list_to_set (visibleList cards) : gset value)) images
    ≠ [] →
  ∃ cards' g',
    tick fuel images cards g = Some (cards', g') ∧
    size (list_to_set (visibleList cards) : gset value)
    ≤ size (list_to_set (visibleList cards') : gset value).
Proof.
  intros Htruthy Hcand.
  destruct (cards !! Math_floor_mul (g 0) 3) as [c|] eqn:Hc.
  2:{ exists cards, (λ n, g (S n)). split; [|done].
      unfold tick, mbind, Rand_bind, Math_random. by rewrite Hc. }
  rewrite (tick_unfold _ _ _ _ _ Hc).
  destruct (pickRandomNotIn_total images (list_to_set (visibleList cards))
              (λ n, g (S n))) as (v & g' & Hpick).
  pose proof Hpick as Hres.
  apply pickRandomNotIn_result in Hres as [(_ & _ & Hnil)|(Hin & Hout & _)];
    [done|].
  assert (Hv : truthy v = true).
  { rewrite Forall_forall in Htruthy. by apply Htruthy. }
  rewrite (selectNext_first_choice fuel _ _ (visibleImage c) _ _ _ Hpick Hv).
  eexists _, _. split; [done|].
  unfold visibleList. rewrite list_fmap_insert, visibleImage_updatedCard.
  apply size_visible_insert with (visibleImage c); [|done|done].
  by rewrite list_lookup_fmap, Hc.
Qed.

Lemma tick_distinct_visible_monotone_witness :
  Forall (λ x, truthy x = true) [Str "a"; Str "b"; Str "c"; Str "d"] ∧
  filter (λ x, x ∉ (list_to_set (visibleList cards_abc) : gset value))
    [Str "a"; Str "b"; Str "c"; Str "d"] ≠ [] ∧
  ∃ cards' g',
    tick 0 [Str "a"; Str "b"; Str "c"; Str "d"] cards_abc draws_blank
      = Some (cards', g') ∧
    size (list_to_set (visibleList cards_abc) : gset value)
    ≤ size (list_to_set (visibleList cards') : gset value).
Proof.
  assert (H1 : Forall (λ x, truthy x = true)
                 [Str "a"; Str "b"; Str "c"; Str "d"])
    by (repeat constructor).
  assert (H2 : filter (λ x, x ∉ (list_to_set (visibleList cards_abc)
                                   : gset value))
                 [Str "a"; Str "b"; Str "c"; Str "d"] ≠ [])
    by (vm_compute; discriminate).
  split; [exact H1|]. split; [exact H2|].
  exact (tick_distinct_visible_monotone 0 _ cards_abc draws_blank H1 H2).
Defined.

(** ** Invariants of the mounted component *)

Lemma tick_length fuel (images : list value) (cards : list card) g cards' g' :
  tick fuel images cards g = Some (cards', g') →
  length cards' = length cards.
Proof.
  destruct (cards !! Math_floor_mul (g 0) 3) as [c|] eqn:Hc.
  - rewrite (tick_unfold _ _ _ _ _ Hc).
    destruct (selectNext _ _ _ _ _) as [[v g1]|]; [|done].
    intros [= <- _]. apply length_insert.
  - unfold tick, mbind, Rand_bind, Math_random. rewrite Hc.
    by intros [= <- _].
Qed.

(** A tick on a non-empty pool keeps both layers of every card in the
    pool. *)
Lemma tick_layers fuel (images : list value) (cards : list card) g cards' g' :
  images ≠ [] →
  Forall (λ c, a c ∈ images ∧ b c ∈ images) cards →
  tick fuel images cards g = Some (cards', g') →
  Forall (λ c, a c ∈ images ∧ b c ∈ images) cards'.
Proof.
  intros Hne Hall.
  destruct (cards !! Math_floor_mul (g 0) 3) as [c|] eqn:Hc.
  - rewrite (tick_unfold _ _ _ _ _ Hc).
    destruct (selectNext _ _ _ _ _) as [[v g1]|] eqn:Hsel; [|done].
    intros [= <- _]. apply Forall_insert; [done|].
    assert (Hc' : a c ∈ images ∧ b c ∈ images).
    { rewrite Forall_forall in Hall. eapply Hall, list_elem_of_lookup_2, Hc. }
    assert (Hv : v ∈ images).
    { apply selectNext_result in Hsel as [Hin| ->]; [done| |done].
      unfold visibleImage. destruct (showA c); tauto. }
    unfold updatedCard. destruct (showA c); simpl; tauto.
  - unfold tick, mbind, Rand_bind, Math_random. rewrite Hc.
    by intros [= <- _].
Qed.

Lemma initialize_length (images : list value) (cards : list card) g cards' g' :
  initialize images cards g = Some (cards', g') →
  length cards' = length cards.
Proof.
  unfold initialize. case_decide as Hl; [by intros [= <- _]|].
  assert (Hne : images ≠ []) by (by intros ->).
  destruct (initializeCards_spec images cards g Hne)
    as (cs & g1 & Hrun & Hlen & _).
  rewrite Hrun. by intros [= <- _].
Qed.

Lemma initialize_layers (images : list value) (cards : list card) g cards' g' :
  images ≠ [] →
  initialize images cards g = Some (cards', g') →
  Forall (λ c, a c ∈ images ∧ b c ∈ images) cards'.
Proof.
  intros Hne. unfold initialize.
  rewrite decide_False by (destruct images; [done|simpl; lia]).
  destruct (initializeCards_spec images cards g Hne)
    as (cs & g1 & Hrun & Hlen & Hat & _).
  rewrite Hrun. intros [= <- _].
  apply Forall_lookup. intros i c Hi.
  assert (Hlt : i < length cards).
  { rewrite <- Hlen. by eapply lookup_lt_Some. }
  destruct (Hat i Hlt) as [Hci Hin].
  rewrite Hci in Hi. injection Hi as <-. done.
Qed.

Lemma intervalEffect_cards (id : positive) (st : Component.state) :
  Component.cards (Component.intervalEffect id st) = Component.cards st ∧
  Component.images (Component.intervalEffect id st) = Component.images st.
Proof.
  unfold Component.intervalEffect, Component.clearCurrent.
  case_decide; [done|]. by destruct (Component.timerRef st).
Qed.

Lemma reachable_cards_invariant (defaultIntervalMs : number)
    (st : Component.state) :
  Component.reachable defaultIntervalMs st →
  length (Component.cards st) = 3 ∧ layers_in_pool st.
Proof.
  induction 1 as [|st imgs id g st' g' Hreach [IHlen IHlay] Hstep
                  |st ms id _ [IHlen IHlay]
                  |st fuel id g st' g' Hreach [IHlen IHlay] Hstep].
  - split; [done|]. by intros Hne.
  - unfold Component.setImages in Hstep.
    apply Rand_bind_Some in Hstep as (cs & g1 & Hinit & [= <- _]).
    rewrite stop_cards in Hinit. simpl in Hinit.
    unfold layers_in_pool.
    destruct (intervalEffect_cards id
      (Component.withCards
         (Component.stop
            {| Component.images := imgs;
               Component.intervalMs := Component.intervalMs st;
               Component.cards := Component.cards st;
               Component.timerRef := Component.timerRef st;
               Component.activeTimers := Component.activeTimers st;
               Component.hasCleanup := Component.hasCleanup st |}) cs))
      as [-> ->].
    simpl. rewrite stop_images. simpl. split.
    + by rewrite (initialize_length _ _ _ _ _ Hinit).
    + intros Hne. by eapply initialize_layers.
  - unfold Component.setIntervalMs.
    destruct (Object_is ms (Component.intervalMs st)); [done|].
    unfold layers_in_pool.
    destruct (intervalEffect_cards id
      (Component.stop
         {| Component.images := Component.images st;
            Component.intervalMs := ms;
            Component.cards := Component.cards st;
            Component.timerRef := Component.timerRef st;
            Component.activeTimers := Component.activeTimers st;
            Component.hasCleanup := Component.hasCleanup st |}))
      as [-> ->].
    by rewrite stop_cards, stop_images.
  - unfold Component.fire in Hstep.
    destruct (Component.activeTimers st !! id) as [t|] eqn:Ht.
    + apply Rand_bind_Some in Hstep as (cs & g1 & Htick & [= <- _]).
      destruct (reachable_invariant _ _ Hreach) as [_ Hcur].
      destruct (Hcur id t Ht) as [Himg Hne]. rewrite Himg in Htick.
      unfold layers_in_pool. simpl. split.
      * by rewrite (tick_length _ _ _ _ _ _ Htick).
      * intros _. eapply tick_layers; [done| |done]. by apply IHlay.
    + by injection Hstep as <- _.
Qed.

(** X10: the mounted component always has exactly three cards: neither
    the initialising effect nor a tick changes their number, so the target
    index of a tick, one of 0, 1, 2, always names a card. *)
Theorem reachable_three_cards (defaultIntervalMs : number)
    (st : Component.state) (r : unit_draw) :
  Component.reachable defaultIntervalMs st →
  length (Component.cards st) = 3 ∧
  is_Some (Component.cards st !! Math_floor_mul r 3).
Proof.
  intros Hreach.
  destruct (reachable_cards_invariant _ _ Hreach) as [Hlen _].
  split; [done|]. by apply target_in_range.
Qed.

Lemma reachable_three_cards_witness :
  Component.reachable (Finite 5000) state_ab ∧
  length (Component.cards state_ab) = 3 ∧
  is_Some (Component.cards state_ab !! Math_floor_mul draw_half 3).
Proof.
  split; [exact reachable_state_ab|].
  exact (reachable_three_cards (Finite 5000) state_ab draw_half
           reachable_state_ab).
Defined.

Lemma ticks_layers (n fuel : nat) (images : list value) (cards : list card)
    g cards' g' :
  images ≠ [] →
  Forall (λ c, a c ∈ images ∧ b c ∈ images) cards →
  ticks n fuel images cards g = Some (cards', g') →
  Forall (λ c, a c ∈ images ∧ b c ∈ images) cards' ∧
  length cards' = length cards.
Proof.
  intros Hne. revert cards g.
  induction n as [|n IH]; intros cards g Hall; simpl.
  { by intros [= <- _]. }
  intros (cards1 & g1 & Htick & Hrest)%Rand_bind_Some.
  destruct (IH cards1 g1 (tick_layers _ _ _ _ _ _ Hne Hall Htick) Hrest)
    as [Hall' Hlen'].
  split; [done|]. by rewrite Hlen', (tick_length _ _ _ _ _ _ Htick).
Qed.

(** X11: once the initialising effect has run on a non-empty pool, ticks
    on that pool keep both layers of every card, and so the image it
    shows, among the entries of the pool, however many of them run; the
    number of cards stays the same. *)
Theorem layers_stay_in_pool (n fuel : nat) (images : list value)
    (cards cards0 cards' : list card) (g g0 g1 g' : random_source) :
  images ≠ [] →
  initialize images cards g = Some (cards0, g0) →
  ticks n fuel images cards0 g1 = Some (cards', g') →
  length cards' = length cards ∧
  Forall (λ c, a c ∈ images ∧ b c ∈ images ∧ visibleImage c ∈ images) cards'.
Proof.
  intros Hne Hinit Hticks.
  destruct (ticks_layers n fuel images cards0 g1 cards' g' Hne
              (initialize_layers _ _ _ _ _ Hne Hinit) Hticks) as [Hall Hlen].
  split; [by rewrite Hlen, (initialize_length _ _ _ _ _ Hinit)|].
  eapply Forall_impl; [exact Hall|].
  intros c [Ha Hb]. split; [done|]. split; [done|].
  unfold visibleImage. by destruct (showA c).
Qed.

Lemma layers_stay_in_pool_witness :
  [Str "a"; Str "b"] ≠ [] ∧
  initialize [Str "a"; Str "b"] initialCards draws_blank
    = Some (Component.cards state_ab, λ n, draws_blank (S (S (S n)))) ∧
  ticks 1 5 [Str "a"; Str "b"] (Component.cards state_ab) draws_blank
    = Some ([ {| a := Str "a"; b := Str "b"; showA := false |};
              {| a := Str "a"; b := Str "a"; showA := true |};
              {| a := Str "b"; b := Str "b"; showA := true |} ],
            λ n, draws_blank (S (S (S n)))) ∧
  length [ {| a := Str "a"; b := Str "b"; showA := false |};
           {| a := Str "a"; b := Str "a"; showA := true |};
           {| a := Str "b"; b := Str "b"; showA := true |} ]
    = length initialCards ∧
  Forall (λ c, a c ∈ [Str "a"; Str "b"] ∧ b c ∈ [Str "a"; Str "b"] ∧
               visibleImage c ∈ [Str "a"; Str "b"])
    [ {| a := Str "a"; b := Str "b"; showA := false |};
      {| a := Str "a"; b := Str "a"; showA := true |};
      {| a := Str "b"; b := Str "b"; showA := true |} ].
Proof.
  assert (H1 : [Str "a"; Str "b"] ≠ []) by discriminate.
  assert (H2 : initialize [Str "a"; Str "b"] initialCards draws_blank
               = Some (Component.cards state_ab,
                       λ n, draws_blank (S (S (S n)))))
    by (vm_compute; reflexivity).
  assert (H3 : ticks 1 5 [Str "a"; Str "b"] (Component.cards state_ab)
                 draws_blank
               = Some ([ {| a := Str "a"; b := Str "b"; showA := false |};
                         {| a := Str "a"; b := Str "a"; showA := true |};
                         {| a := Str "b"; b := Str "b"; showA := true |} ],
                       λ n, draws_blank (S (S (S n)))))
    by (vm_compute; reflexivity).
  split; [exact H1|]. split; [exact H2|]. split; [exact H3|].
  exact (layers_stay_in_pool 1 5 _ _ _ _ _ _ _ _ H1 H2 H3).
Defined.

Lemma intervalEffect_one_interval (id : positive) (st : Component.state) :
  Component.activeTimers st = ∅ →
  one_interval (Component.intervalEffect id st).
Proof.
  intros Hempty. unfold one_interval, Component.intervalEffect.
  destruct (decide (length (Component.images st) = 0)) as [Hl|Hl]; simpl.
  - rewrite decide_True; [done|]. by apply nil_length_inv.
  - assert (Himg : Component.images (Component.clearCurrent st)
                   = Component.images st).
    { unfold Component.clearCurrent. by destruct (Component.timerRef st). }
    assert (Hms : Component.intervalMs (Component.clearCurrent st)
                  = Component.intervalMs st).
    { unfold Component.clearCurrent. by destruct (Component.timerRef st). }
    assert (Hts : Component.activeTimers (Component.clearCurrent st) = ∅).
    { unfold Component.clearCurrent, Component.clearInterval.
      destruct (Component.timerRef st); simpl; [|done].
      rewrite Hempty. apply delete_empty. }
    rewrite Himg, Hms, Hts.
    rewrite decide_False by (intros Hnil; by rewrite Hnil in Hl).
    exists id. split; [done|]. apply insert_empty.
Qed.

(** X12: whenever the cleanup and then the body of the interval effect
    run, in a state in which every active interval is the one [timerRef]
    holds, they leave no interval when the pool is empty and exactly one
    when it is not: the new one, whose handle [timerRef] now holds,
    registered with the current pool and period. So a reload or a change of
    period replaces the interval and leaves no older one running beside
    it: from then on a firing of the new handle applies one tick on the
    current pool to the cards, and a firing of any other handle changes
    nothing. *)
Theorem effect_leaves_one_interval (st : Component.state) (id : positive)
    (fuel : nat) (fired : positive) (g : random_source) :
  timers_tracked st →
  let st' := Component.intervalEffect id (Component.stop st) in
  one_interval st' ∧
  timers_tracked st' ∧
  Component.fire fuel fired st' g =
    if decide (Component.images st' ≠ [] ∧ fired = id)
    then (cs ← tick fuel (Component.images st') (Component.cards st');
          mret (Component.withCards st' cs)) g
    else Some (st', g).
Proof.
  intros Htracked st'.
  pose proof (stop_no_timers st Htracked) as Hempty.
  pose proof (intervalEffect_one_interval id _ Hempty) as Hone.
  destruct (intervalEffect_invariant id _ Hempty) as [Htracked' _].
  fold st' in Hone, Htracked'.
  split; [done|]. split; [done|].
  unfold one_interval in Hone. unfold Component.fire.
  destruct (decide (Component.images st' = [])) as [Hnil|Hne].
  - rewrite Hone, lookup_empty. rewrite decide_False; [done|]. tauto.
  - destruct Hone as (cur & Href & Hts).
    assert (Hcur : cur = id).
    { destruct (Htracked' cur _ (eq_trans (f_equal (.!! cur) Hts)
                                   (lookup_singleton_eq _ _))) as [Hr _].
      revert Hr. unfold st', Component.intervalEffect.
      case_decide as Hl; [|by intros [= ->]].
      destruct Hne. unfold st', Component.intervalEffect.
      rewrite decide_True by done. simpl. by apply nil_length_inv. }
    subst cur. rewrite Hts.
    destruct (decide (id = fired)) as [->|Hid].
    + rewrite lookup_singleton_eq, decide_True; done.
    + rewrite lookup_singleton_ne by done.
      rewrite decide_False; [done|]. intros [_ ->]. done.
Qed.

Lemma effect_leaves_one_interval_witness :
  timers_tracked state_ab ∧
  let st' := Component.intervalEffect 2%positive (Component.stop state_ab) in
  one_interval st' ∧
  timers_tracked st' ∧
  Component.fire 5 1%positive st' draws_blank =
    if decide (Component.images st' ≠ [] ∧ 1%positive = 2%positive)
    then (cs ← tick 5 (Component.images st') (Component.cards st');
          mret (Component.withCards st' cs)) draws_blank
    else Some (st', draws_blank).
Proof.
  destruct (reachable_invariant _ _ reachable_state_ab) as [Htracked _].
  split; [exact Htracked|].
  exact (effect_leaves_one_interval state_ab 2%positive 5 1%positive
           draws_blank Htracked).
Defined.

(** ** Rendering *)

Section Render_properties.
Context `{Coercions}.

Lemma Card_shown (aSrc bSrc : value) (showA : bool) (fadeMs : number) :
  Render.shown (Render.Card aSrc bSrc showA fadeMs) =
  if truthy (if showA then aSrc else bSrc) then
    [ {| Render.className := "tcf-layer visible";
         Render.src := if showA then aSrc else bSrc;
         Render.transitionDuration := NumberToString fadeMs ++ "ms" |} ]
  else [].
Proof.
  unfold Render.shown, Render.Card.
  destruct showA, (truthy aSrc), (truthy bSrc); reflexivity.
Qed.

(** X13: [Card] renders an [<img>] only for a truthy source, at most
    two, and among them exactly the layer picked by [showA] carries the
    class [visible], provided its source is truthy: what a card shows is
    its visible image, and a card whose visible layer is empty shows
    nothing, even when the other layer holds an image. *)
Theorem Card_shows_visible_image (c : card) (fadeMs : number) :
  let elements := Render.Card (a c) (b c) (showA c) fadeMs in
  Forall (λ e, truthy (Render.src e) = true) elements ∧
  length elements ≤ 2 ∧
  Render.shown elements =
    if truthy (visibleImage c) then
      [ {| Render.className := "tcf-layer visible";
           Render.src := visibleImage c;
           Render.transitionDuration := NumberToString fadeMs ++ "ms" |} ]
    else [].
Proof.
  intros elements. split; [|split].
  - unfold elements, Render.Card.
    destruct (truthy (a c)) eqn:Ha, (truthy (b c)) eqn:Hb;
      repeat constructor; done.
  - unfold elements, Render.Card.
    destruct (truthy (a c)), (truthy (b c)); simpl; lia.
  - apply Card_shown.
Qed.

(** X14: the crossfade. After a tick has written a truthy image into the
    hidden layer of a card that showed a truthy image, [Card] renders both
    layers: the new image with the class [visible], the image shown before
    without it. *)
Theorem Card_after_update (c : card) (newImg : value) (fadeMs : number) :
  truthy (visibleImage c) = true →
  truthy newImg = true →
  let updated := updatedCard c newImg in
  let elements :=
    Render.Card (a updated) (b updated) (showA updated) fadeMs in
  length elements = 2 ∧
  Render.shown elements =
    [ {| Render.className := "tcf-layer visible";
         Render.src := newImg;
         Render.transitionDuration := NumberToString fadeMs ++ "ms" |} ] ∧
  {| Render.className := "tcf-layer ";
     Render.src := visibleImage c;
     Render.transitionDuration := NumberToString fadeMs ++ "ms" |}
    ∈ elements.
Proof.
  intros Hold Hnew updated elements.
  unfold elements, updated, updatedCard, visibleImage, Render.Card in *.
  destruct (showA c); simpl; rewrite Hold, Hnew; simpl.
  - split; [done|]. split; [done|]. apply list_elem_of_here.
  - split; [done|]. split; [done|]. apply list_elem_of_further, list_elem_of_here.
Qed.

(** X15: once the initialising effect has run on a non-empty pool of
    truthy entries, and after any number of ticks on that pool, the
    container has as many cards as before and each of them shows exactly
    one image, an entry of the pool. *)
Theorem render_after_ticks (n fuel : nat) (images : list value)
    (cards cards0 cards' : list card) (g g0 g1 g' : random_source)
    (fadeMs : number) :
  images ≠ [] →
  Forall (λ v, truthy v = true) images →
  initialize images cards g = Some (cards0, g0) →
  ticks n fuel images cards0 g1 = Some (cards', g') →
  length (Render.content cards' fadeMs) = length cards ∧
  Forall (λ elements, ∃ v,
            v ∈ images ∧
            Render.shown elements =
              [ {| Render.className := "tcf-layer visible";
                   Render.src := v;
                   Render.transitionDuration :=
                     NumberToString fadeMs ++ "ms" |} ])
    (Render.content cards' fadeMs).
Proof.
  intros Hne Htruthy Hinit Hticks.
  destruct (ticks_layers n fuel images cards0 g1 cards' g' Hne
              (initialize_layers _ _ _ _ _ Hne Hinit) Hticks) as [Hlay Hlen].
  unfold Render.content. split.
  { by rewrite length_fmap, Hlen, (initialize_length _ _ _ _ _ Hinit). }
  apply Forall_fmap. eapply Forall_impl; [exact Hlay|].
  intros c [Ha Hb]. simpl. exists (visibleImage c).
  assert (Hin : visibleImage c ∈ images).
  { unfold visibleImage. by destruct (showA c). }
  split; [done|].
  rewrite Card_shown. fold (visibleImage c).
  rewrite Forall_forall in Htruthy. by rewrite (Htruthy _ Hin).
Qed.

End Render_properties.

Lemma Card_after_update_witness :
  truthy (visibleImage {| a := Str "a"; b := Null; showA := true |}) = true ∧
  truthy (Str "b") = true ∧
  let updated := updatedCard {| a := Str "a"; b := Null; showA := true |}
                   (Str "b") in
  let elements :=
    Render.Card (H := no_text_coercions)
      (a updated) (b updated) (showA updated) (Finite 3000) in
  length elements = 2 ∧
  Render.shown elements =
    [ {| Render.className := "tcf-layer visible";
         Render.src := Str "b";
         Render.transitionDuration := "ms" |} ] ∧
  {| Render.className := "tcf-layer ";
     Render.src := Str "a";
     Render.transitionDuration := "ms" |} ∈ elements.
Proof.
  split; [reflexivity|]. split; [reflexivity|].
  exact (Card_after_update (H := no_text_coercions)
           {| a := Str "a"; b := Null; showA := true |} (Str "b")
           (Finite 3000) eq_refl eq_refl).
Defined.

Lemma render_after_ticks_witness :
  [Str "a"; Str "b"] ≠ [] ∧
  Forall (λ v, truthy v = true) [Str "a"; Str "b"] ∧
  initialize [Str "a"; Str "b"] initialCards draws_blank
    = Some (Component.cards state_ab, λ n, draws_blank (S (S (S n)))) ∧
  ticks 1 5 [Str "a"; Str "b"] (Component.cards state_ab) draws_blank
    = Some ([ {| a := Str "a"; b := Str "b"; showA := false |};
              {| a := Str "a"; b := Str "a"; showA := true |};
              {| a := Str "b"; b := Str "b"; showA := true |} ],
            λ n, draws_blank (S (S (S n)))) ∧
  length (Render.content (H := no_text_coercions)
            [ {| a := Str "a"; b := Str "b"; showA := false |};
              {| a := Str "a"; b := Str "a"; showA := true |};
              {| a := Str "b"; b := Str "b"; showA := true |} ]
            (Finite 3000)) = length initialCards ∧
  Forall (λ elements, ∃ v,
            v ∈ [Str "a"; Str "b"] ∧
            Render.shown elements =
              [ {| Render.className := "tcf-layer visible";
                   Render.src := v;
                   Render.transitionDuration := "ms" |} ])
    (Render.content (H := no_text_coercions)
       [ {| a := Str "a"; b := Str "b"; showA := false |};
         {| a := Str "a"; b := Str "a"; showA := true |};
         {| a := Str "b"; b := Str "b"; showA := true |} ]
       (Finite 3000)).
Proof.
  assert (H1 : [Str "a"; Str "b"] ≠ []) by discriminate.
  assert (H2 : Forall (λ v, truthy v = true) [Str "a"; Str "b"])
    by (repeat constructor).
  assert (H3 : initialize [Str "a"; Str "b"] initialCards draws_blank
               = Some (Component.cards state_ab,
                       λ n, draws_blank (S (S (S n)))))
    by (vm_compute; reflexivity).
  assert (H4 : ticks 1 5 [Str "a"; Str "b"] (Component.cards state_ab)
                 draws_blank
               = Some ([ {| a := Str "a"; b := Str "b"; showA := false |};
                         {| a := Str "a"; b := Str "a"; showA := true |};
                         {| a := Str "b"; b := Str "b"; showA := true |} ],
                       λ n, draws_blank (S (S (S n)))))
    by (vm_compute; reflexivity).
  split; [exact H1|]. split; [exact H2|]. split; [exact H3|].
  split; [exact H4|].
  exact (render_after_ticks (H := no_text_coercions) 1 5 _ _ _ _ _ _ _ _
           (Finite 3000) H1 H2 H3 H4).
Defined.

(** ** When the selection returns, and what *)

(** X16: on a non-empty pool of truthy entries a returned selection is
    always an entry of the pool: the last fallback of the callback, keeping
    the current image (line 303), is never taken. *)
Theorem selectNext_in_pool (fuel : nat) (images : list value)
    (visibleSet : gset value) (currentVisible : value)
    (g : random_source) (v : value) (g' : random_source) :
  images ≠ [] →
  Forall (λ x, truthy x = true) images →
  selectNext fuel images visibleSet currentVisible g = Some (v, g') →
  v ∈ images.
Proof.
  intros Hne Htruthy. rewrite Forall_forall in Htruthy.
  unfold selectNext.
  intros (v0 & g0 & Hpick & Hrest)%Rand_bind_Some.
  apply Rand_bind_Some in Hrest as (v1 & g1 & Hsecond & Hlast).
  injection Hlast as <- <-.
  assert (Hin : v1 ∈ images).
  { destruct (truthy v0) eqn:Hv0.
    - injection Hsecond as <- <-.
      apply pickRandomNotIn_result in Hpick as [(-> & _)|(Hin & _)]; done.
    - revert Hsecond. unfold pickRandomExcluding.
      case_decide as Hl0.
      { destruct images; [done|simpl in Hl0; lia]. }
      case_decide.
      + intros [= <- <-]. apply at_index_elem. lia.
      + intros Hloop. apply loop_returns in Hloop as [Hv [->|Hin]]; done. }
  by rewrite (Htruthy v1 Hin).
Qed.

Lemma selectNext_in_pool_witness :
  [Str "a"; Str "b"; Str "c"; Str "d"] ≠ [] ∧
  Forall (λ x, truthy x = true) [Str "a"; Str "b"; Str "c"; Str "d"] ∧
  selectNext 0 [Str "a"; Str "b"; Str "c"; Str "d"]
    {[Str "a"; Str "b"; Str "c"]} (Str "a") draws_blank
    = Some (Str "d", λ n, draws_blank (S n)) ∧
  Str "d" ∈ [Str "a"; Str "b"; Str "c"; Str "d"].
Proof.
  assert (H1 : [Str "a"; Str "b"; Str "c"; Str "d"] ≠ []) by discriminate.
  assert (H2 : Forall (λ x, truthy x = true)
                 [Str "a"; Str "b"; Str "c"; Str "d"])
    by (repeat constructor).
  assert (H3 : selectNext 0 [Str "a"; Str "b"; Str "c"; Str "d"]
                 {[Str "a"; Str "b"; Str "c"]} (Str "a") draws_blank
               = Some (Str "d", λ n, draws_blank (S n)))
    by (vm_compute; reflexivity).
  split; [exact H1|]. split; [exact H2|]. split; [exact H3|].
  exact (selectNext_in_pool 0 _ _ (Str "a") draws_blank (Str "d") _ H1 H2 H3).
Defined.

(** Some draws make the selection return, unless the pool has two or more
    entries, all equal to the target card's visible image. *)
Lemma selectNext_can_return (images : list value) (visibleSet : gset value)
    (currentVisible : value) :
  Forall (λ x, truthy x = true) images →
  ¬ (2 ≤ length images ∧ Forall (λ x, x = currentVisible) images ∧
     currentVisible ∈ visibleSet) →
  ∃ fuel g v g',
    selectNext fuel images visibleSet currentVisible g = Some (v, g').
Proof.
  intros Htruthy Hnot.
  destruct (decide (filter (λ x, x ∉ visibleSet) images = [])) as [Hnil|Hcand].
  2:{ destruct (pickRandomNotIn_total images visibleSet (λ _, draw_0))
        as (v & g' & Hpick).
      pose proof Hpick as Hres.
      apply pickRandomNotIn_result in Hres as [(_ & _ & ?)|(Hin & _)]; [done|].
      exists 0, (λ _, draw_0), v, g'.
      apply selectNext_first_choice; [done|].
      rewrite Forall_forall in Htruthy. by apply Htruthy. }
  destruct (selectNext_cases 1 images visibleSet currentVisible
              (λ _, draw_0)) as [(v & g' & Hsel)|(_ & Hlen & _)]; [by eauto|].
  destruct (decide (Forall (λ x, x = currentVisible) images)) as [Hall|Hsome].
  { destruct Hnot. split; [lia|]. split; [done|].
    destruct images as [|x images]; [simpl in Hlen; lia|].
    apply Forall_cons in Hall as [-> _].
    destruct (decide (currentVisible ∈ visibleSet)) as [|Hout]; [done|].
    by destruct (filter_nil_not_elem_of _ _ currentVisible Hnil Hout);
      left. }
  apply not_Forall_Exists in Hsome; [|apply _].
  apply Exists_exists in Hsome as (x & Hx & Hne).
  apply list_elem_of_lookup in Hx as [i Hi].
  destruct (Math_floor_mul_onto (length images) i) as [r Hr].
  { by eapply lookup_lt_Some. }
  exists 1, (λ _, r), x, (λ _, r).
  unfold selectNext. apply Rand_bind_Some. exists Null, (λ _, r).
  split; [by apply pickRandomNotIn_none|].
  simpl. apply Rand_bind_Some. exists x, (λ _, r). split.
  - unfold pickRandomExcluding. rewrite !decide_False by lia.
    simpl. rewrite decide_True by done.
    unfold mbind, Rand_bind, Math_random. rewrite Hr.
    unfold at_index. rewrite Hi. simpl. by rewrite decide_False.
  - unfold mret, Rand_ret. rewrite Forall_forall in Htruthy.
    rewrite (Htruthy x); [done|]. by eapply list_elem_of_lookup_2.
Qed.

(** X17: on a pool of truthy entries the selection fails to return for
    every fuel and every random source exactly when the pool has two or
    more entries, all of them equal to the target card's image, and that
    image is in the visible set; on any other pool some draws make it
    return. *)
Theorem selectNext_hangs_iff (images : list value) (visibleSet : gset value)
    (currentVisible : value) :
  Forall (λ x, truthy x = true) images →
  (∀ fuel g, selectNext fuel images visibleSet currentVisible g = None) ↔
  (2 ≤ length images ∧ Forall (λ x, x = currentVisible) images ∧
   currentVisible ∈ visibleSet).
Proof.
  intros Htruthy. split.
  - intros Hnever.
    destruct (decide (2 ≤ length images ∧
                      Forall (λ x, x = currentVisible) images ∧
                      currentVisible ∈ visibleSet)) as [|Hnot]; [done|].
    destruct (selectNext_can_return images visibleSet currentVisible
                Htruthy Hnot) as (fuel & g & v & g' & Hsel).
    by rewrite Hnever in Hsel.
  - intros (Hlen & Hall & Hvis) fuel g.
    apply selectNext_duplicate_pool; [lia|done|done].
Qed.

Lemma selectNext_hangs_iff_witness :
  Forall (λ x, truthy x = true) [Str "a"; Str "a"] ∧
  ((∀ fuel g,
      selectNext fuel [Str "a"; Str "a"] {[Str "a"]} (Str "a") g = None) ↔
   (2 ≤ length [Str "a"; Str "a"] ∧
    Forall (λ x, x = Str "a") [Str "a"; Str "a"] ∧
    Str "a" ∈ ({[Str "a"]} : gset value))).
Proof.
  assert (H1 : Forall (λ x, truthy x = true) [Str "a"; Str "a"])
    by (repeat constructor).
  split; [exact H1|].
  exact (selectNext_hangs_iff [Str "a"; Str "a"] {[Str "a"]} (Str "a") H1).
Defined.

(** ** Runs of ticks *)

Lemma tick_no_duplicate_step fuel (images : list value) (cards : list card) g :
  Forall (λ v, truthy v = true) images →
  4 ≤ length (remove_dups images) →
  length cards = 3 →
  NoDup (visibleList cards) →
  ∃ cards' g',
    tick fuel images cards g = Some (cards', g') ∧
    length cards' = 3 ∧
    NoDup (visibleList cards').
Proof.
  intros Htruthy Hfour Hlen Hnd.
  destruct (target_in_range cards (g 0) Hlen) as [c Hc].
  rewrite (tick_unfold _ _ _ _ _ Hc).
  destruct (pickRandomNotIn_total images (list_to_set (visibleList cards))
              (λ n, g (S n))) as (v & g' & Hpick).
  pose proof Hpick as Hres.
  apply pickRandomNotIn_result in Hres as [(_ & _ & Hnil)|(Hin & Hout & _)].
  { by destruct (candidate_exists images cards Hfour Hlen). }
  assert (Hv : truthy v = true).
  { rewrite Forall_forall in Htruthy. by apply Htruthy. }
  rewrite (selectNext_first_choice fuel _ _ (visibleImage c) _ _ _ Hpick Hv).
  eexists _, _. split; [done|]. split; [by rewrite length_insert|].
  unfold visibleList. rewrite list_fmap_insert, visibleImage_updatedCard.
  apply NoDup_filter_insert; [done|].
  intros Hvis. apply Hout. by apply elem_of_list_to_set.
Qed.

(** X18: on a pool of truthy entries with at least four distinct ones,
    starting from three cards whose visible images are free of duplicates,
    any number of ticks in a row returns, never entering the rejection
    loop, and leaves three cards whose visible images are free of
    duplicates. *)
Theorem ticks_keep_no_duplicate (n fuel : nat) (images : list value)
    (cards : list card) (g : random_source) :
  Forall (λ v, truthy v = true) images →
  4 ≤ length (remove_dups images) →
  length cards = 3 →
  NoDup (visibleList cards) →
  ∃ cards' g',
    ticks n fuel images cards g = Some (cards', g') ∧
    length cards' = 3 ∧
    NoDup (visibleList cards').
Proof.
  intros Htruthy Hfour.
  revert cards g. induction n as [|n IH]; intros cards g Hlen Hnd.
  { by exists cards, g. }
  destruct (tick_no_duplicate_step fuel images cards g Htruthy Hfour Hlen Hnd)
    as (cards1 & g1 & Hrun & Hlen1 & Hnd1).
  destruct (IH cards1 g1 Hlen1 Hnd1) as (cards' & g' & Hrest & Hlen' & Hnd').
  exists cards', g'. split; [|done].
  simpl. apply Rand_bind_Some. eauto.
Qed.

Lemma ticks_keep_no_duplicate_witness :
  Forall (λ v, truthy v = true) [Str "a"; Str "b"; Str "c"; Str "d"] ∧
  4 ≤ length (remove_dups [Str "a"; Str "b"; Str "c"; Str "d"]) ∧
  length cards_abc = 3 ∧
  NoDup (visibleList cards_abc) ∧
  ∃ cards' g',
    ticks 10 0 [Str "a"; Str "b"; Str "c"; Str "d"] cards_abc draws_blank
      = Some (cards', g') ∧
    length cards' = 3 ∧
    NoDup (visibleList cards').
Proof.
  assert (H1 : Forall (λ v, truthy v = true)
                 [Str "a"; Str "b"; Str "c"; Str "d"])
    by (repeat constructor).
  assert (H2 : 4 ≤ length (remove_dups [Str "a"; Str "b"; Str "c"; Str "d"]))
    by (vm_compute; lia).
  assert (H3 : length cards_abc = 3) by reflexivity.
  assert (H4 : NoDup (visibleList cards_abc)) by by_computation.
  repeat (split; [assumption|]).
  exact (ticks_keep_no_duplicate 10 0 _ cards_abc draws_blank H1 H2 H3 H4).
Defined.

(** ** The callback and the effect on an empty pool *)




(** ** The callback on a pool of equal entries *)

(** On a pool of two or more entries, all equal to a truthy image that
    every card shows, the callback never returns. *)
Lemma tick_duplicate_pool fuel (images : list value) (v : value)
    (cards : list card) g :
  1 < length images →
  Forall (λ x, x = v) images →
  truthy v = true →
  length cards = 3 →
  Forall (λ c, visibleImage c = v) cards →
  tick fuel images cards g = None.
Proof.
  intros Hlen Hall Hv Hcards Hshow.
  destruct (target_in_range cards (g 0) Hcards) as [c Hc].
  rewrite (tick_unfold _ _ _ _ _ Hc).
  assert (Hvis : visibleImage c = v).
  { rewrite Forall_forall in Hshow. eapply Hshow, list_elem_of_lookup_2, Hc. }
  rewrite Hvis, selectNext_duplicate_pool; [done..|].
  rewrite <- Hvis. apply (visible_in_set cards (Math_floor_mul (g 0) 3) c Hc).
  by rewrite Hvis.
Qed.

(** C4 at the pool a, a: the initialising effect makes every card show a,
    whatever it draws, and on these cards the callback never returns,
    whatever the fuel and the random source: no layer is written and no
    [showA] flips. This is the loop of [pickRandomExcluding] that C2
    reports. *)
Theorem C4_duplicate_pool_tick_never_returns (fuel : nat)
    (g0 g : random_source) :
  ∃ cards g1,
    initialize [Str "a"; Str "a"] initialCards g0 = Some (cards, g1) ∧
    length cards = 3 ∧
    visibleImage <$> cards = [Str "a"; Str "a"; Str "a"] ∧
    tick fuel [Str "a"; Str "a"] cards g = None.
Proof.
  destruct (initializeCards_spec [Str "a"; Str "a"] initialCards g0
              ltac:(discriminate)) as (cards & g1 & Hrun & Hlen & Hat & _).
  exists cards, g1. split; [done|]. split; [done|].
  assert (Hshow : Forall (λ c, visibleImage c = Str "a") cards).
  { apply Forall_lookup. intros i c Hi.
    assert (Hlt : i < length initialCards).
    { rewrite <- Hlen. by eapply lookup_lt_Some. }
    destruct (Hat i Hlt) as [Hci Hin]. rewrite Hci in Hi.
    injection Hi as <-. simpl.
    repeat (apply elem_of_cons in Hin as [->|Hin]; [done|]).
    by apply elem_of_nil in Hin. }
  split.
  - destruct cards as [|c0 [|c1 [|c2 [|? ?]]]]; try done.
    apply Forall_cons in Hshow as [H0 Hshow].
    apply Forall_cons in Hshow as [H1 Hshow].
    apply Forall_cons in Hshow as [H2 _].
    simpl. by rewrite H0, H1, H2.
  - apply (tick_duplicate_pool fuel _ (Str "a")); try done.
    + simpl. lia.
    + by repeat constructor.
Qed.
